(** * compaction-1d: the Darcy-Stokes time-marching core

    A shallow embedding of [source/misc.py] and [source/solvers.py] and the
    properties of the constitutive helpers, the residual builder, the
    nonlinear step solver, the mesh motion step and the driver.

    Conventions of the embedding.
    - Python floats are read as real numbers with exact arithmetic ([R]);
      rounding, overflow and NaN are outside the model.
    - The finite-element library is external.  Its symbolic language (UFL)
      is a free term algebra [expr]; its solvers and the scattered-data
      interpolation are functions supplied by the environment (the class
      [External]), constrained only where a property needs their contract.
    - A [dolfinx] [Function] on the mixed P1 x P1 space is the pair of its
      nodal arrays; [Function] objects live in a heap and are passed by
      reference, as Python does.
    - The mesh is the array of its vertex coordinates [geometry.x[:,0]],
      cells joining consecutive vertices. *)

From Stdlib Require Import Reals Lra Lia String.
From stdpp Require Import base option list gmap.

Open Scope R_scope.

(** ** Parameters ([from params import ...])

    [params.py] is not part of the sources at hand: its constants are taken
    as parameters of the whole development. *)

Class Params := {
  a : R;          (* exponent of phi in K *)
  b : R;          (* exponent of 1-phi in K *)
  alpha : R;
  dt : R;
  eps : R;
  nt : nat;
  nz : nat;
  phi_min : R;
  theta : R;
  phi0 : R
}.

(** ** Python arithmetic *)

(** [x ** y] on real numbers.  An exponent with an integral value gives the
    integer power, whatever the sign of the base; otherwise a positive base
    gives [exp (y * ln x)] and a zero base gives 0.  (A negative base with a
    fractional exponent is a complex number in Python and a zero base with a
    negative exponent raises: neither occurs below, the model returns the
    value of [powerRZ], respectively 0, there.) *)
Definition rpow (x y : R) : R :=
  if Req_dec_T y (IZR (Int_part y)) then powerRZ x (Int_part y)
  else if Rlt_dec 0 x then Rpower x y
  else 0.

(** The helpers [K] and [max] are written with the overloaded Python
    operators only: they run on floats and on symbolic expressions alike.
    [PyNum] is that interface; [num] reads a Python number in the carrier. *)
Class PyNum (T : Type) := {
  num : R -> T;
  py_add : T -> T -> T;
  py_sub : T -> T -> T;
  py_mul : T -> T -> T;
  py_div : T -> T -> T;
  py_pow : T -> R -> T
}.

Declare Scope py_scope.
Delimit Scope py_scope with py.
Infix "+" := py_add : py_scope.
Infix "-" := py_sub : py_scope.
Infix "*" := py_mul : py_scope.
Infix "/" := py_div : py_scope.
Infix "**" := py_pow (at level 30, right associativity) : py_scope.

#[export] Instance PyNum_R : PyNum R := {
  num := fun x => x;
  py_add := Rplus;
  py_sub := Rminus;
  py_mul := Rmult;
  py_div := Rdiv;
  py_pow := rpow
}.

(** ** Symbolic expressions and forms (UFL) *)

(** References to [Function] objects. *)
Abbreviation loc := nat.

Inductive expr : Type :=
  | Coefficient (f : loc) (i : nat)   (* split(f)[i], f a Function object *)
  | TestFunctions (i : nat)           (* the i-th test function of the space *)
  | TrialFunction                     (* the unknown of a linear problem *)
  | Constant (c : R)                  (* a Python number inside an expression *)
  | Sum (e1 e2 : expr)
  | Difference (e1 e2 : expr)
  | Product (e1 e2 : expr)
  | Division (e1 e2 : expr)
  | Power (e : expr) (y : R)
  | Dx (e : expr) (i : nat).

#[export] Instance PyNum_expr : PyNum expr := {
  num := Constant;
  py_add := Sum;
  py_sub := Difference;
  py_mul := Product;
  py_div := Division;
  py_pow := Power
}.

(** Integration measures: [dx] over the cells, [ds] over the exterior
    facets (in one dimension the two end points of the interval). *)
Inductive measure := dx | ds.

(** [positive] is [false] for an integral that entered the form through a
    subtraction. *)
Record integral := Integral {
  integrand : expr;
  over : measure;
  positive : bool
}.

Definition form := list integral.

Definition integrate (e : expr) (m : measure) : form := [Integral e m true].
Definition form_add (F G : form) : form := F ++ G.
Definition form_sub (F G : form) : form :=
  F ++ map (fun I => Integral (integrand I) (over I) (negb (positive I))) G.

(** Pointwise value of an expression: [coef], [test] and [trial] give the
    values of the fields at the point, [deriv] the values of the
    derivatives that occur. *)
Record point := {
  coef : loc -> nat -> R;
  test : nat -> R;
  trial : R;
  deriv : expr -> nat -> R
}.

Fixpoint eval (p : point) (e : expr) : R :=
  match e with
  | Coefficient f i => coef p f i
  | TestFunctions i => test p i
  | TrialFunction => trial p
  | Constant c => c
  | Sum e1 e2 => eval p e1 + eval p e2
  | Difference e1 e2 => eval p e1 - eval p e2
  | Product e1 e2 => eval p e1 * eval p e2
  | Division e1 e2 => eval p e1 / eval p e2
  | Power e1 y => rpow (eval p e1) y
  | Dx e1 i => deriv p e1 i
  end.

(** ** Arrays (numpy) *)

#[export] Instance R_inhabited : Inhabited R := populate 0.

(** [x.max()] and [x.min()] of a one-dimensional array.  (numpy raises on
    an empty array; a mesh has vertices, and the model gives 0 there.) *)
Definition array_max (x : list R) : R :=
  match x with [] => 0 | x0 :: xs => foldl Rmax x0 xs end.

Definition array_min (x : list R) : R :=
  match x with [] => 0 | x0 :: xs => foldl Rmin x0 xs end.

(** [domain.geometry.x.max()].  [geometry.x] has three columns, on an
    interval mesh the vertex coordinates and two columns of zeros, and the
    maximum is taken over all its entries. *)
Definition geometry_max (x : list R) : R := Rmax (array_max x) 0.

(** [np.isclose(x, y)], with its default tolerances. *)
Definition isclose (x y : R) : bool :=
  if Rle_dec (Rabs (x - y)) (1e-8 + 1e-5 * Rabs y) then true else false.

(** [np.linspace(start, stop, num)]: [arange(0, num) * step + start] with
    [step = (stop - start) / (num - 1)]. *)
Definition linspace (start stop : R) (num : nat) : list R :=
  map (fun i => INR i * ((stop - start) / INR (num - 1)) + start) (seq 0 num).

(** A two-dimensional array: its shape and its rows. *)
Record ndarray := {
  shape : nat * nat;
  rows : list (list R)
}.

Definition zeros (sh : nat * nat) : ndarray :=
  {| shape := sh; rows := replicate sh.1 (replicate sh.2 0) |}.

Inductive exn := ValueError | RuntimeError.

Inductive res (A : Type) : Type :=
  | Ok (x : A)
  | Raise (e : exn).
Arguments Ok {A} x.
Arguments Raise {A} e.

(** Broadcasting of a one-dimensional array to length [n]: the array
    itself when it has length [n], its single entry repeated when it has
    length 1, and no result otherwise. *)
Definition broadcast_to (v : list R) (n : nat) : option (list R) :=
  if decide (length v = n) then Some v
  else match v with
       | [c] => Some (replicate n c)
       | _ => None
       end.

(** [A[i,:] = v], for [i] a row of [A]. *)
Definition set_row (A : ndarray) (i : nat) (v : list R) : res ndarray :=
  match broadcast_to v (shape A).2 with
  | Some v' => Ok {| shape := shape A; rows := <[i := v']> (rows A) |}
  | None => Raise ValueError
  end.

(** [x += y] on one-dimensional arrays. *)
Definition iadd (x y : list R) : res (list R) :=
  match broadcast_to y (length x) with
  | Some y' => Ok (zip_with Rplus x y')
  | None => Raise ValueError
  end.

(** ** Finite-element objects (dolfinx) *)

(** A [Function] of the mixed space: the nodal values of its two
    components, [sub(0)] and [sub(1)]. *)
Record fem_function := {
  dofs0 : list R;
  dofs1 : list R
}.

#[export] Instance fem_function_inhabited : Inhabited fem_function :=
  populate {| dofs0 := []; dofs1 := [] |}.

Definition sub (f : fem_function) (i : nat) : list R :=
  match i with O => dofs0 f | _ => dofs1 f end.

Definition set_sub (f : fem_function) (i : nat) (v : list R) : fem_function :=
  match i with
  | O => {| dofs0 := v; dofs1 := dofs1 f |}
  | _ => {| dofs0 := dofs0 f; dofs1 := v |}
  end.

(** [Function] objects are mutable and shared: the heap maps references to
    their current contents. *)
Abbreviation heap := (gmap loc fem_function).

(** Computations that read and write the heap and may raise.  The heap
    survives an exception. *)
Definition M (A : Type) : Type := heap -> res A * heap.

Definition ret {A} (x : A) : M A := fun h => (Ok x, h).

Definition bind {A B} (m : M A) (k : A -> M B) : M B :=
  fun h => match m h with
           | (Ok x, h') => k x h'
           | (Raise e, h') => (Raise e, h')
           end.

Definition lift {A} (r : res A) : M A := fun h => (r, h).

Notation "'do' x <- m ; k" := (bind m (fun x => k))
  (at level 10, x name, m at level 100, k at level 200).
Notation "'do' ' pat <- m ; k" :=
  (bind m (fun x => match x with pat => k end))
  (at level 10, pat pattern, m at level 100, k at level 200).
Notation "'run' m ; k" := (bind m (fun _ => k))
  (at level 10, m at level 100, k at level 200).

(** [Function(V)] on a mesh of [n] vertices: a new object, all zero. *)
Definition new_Function (n : nat) : M loc :=
  fun h => let l := fresh (dom h) in
           (Ok l, <[l := {| dofs0 := replicate n 0; dofs1 := replicate n 0 |}]> h).

(** The nodal values of [f.sub(i)]. *)
Definition values (f : loc * nat) : M (list R) :=
  fun h => (Ok (sub (h !!! f.1) f.2), h).

(** [dst.interpolate(src)] between P1 fields on one mesh: the nodal values
    of [src] are written into [dst]. *)
Definition assign (dst : loc * nat) (v : list R) : M unit :=
  fun h => (Ok tt, <[dst.1 := set_sub (h !!! dst.1) dst.2 v]> h).

Definition interpolate (dst src : loc * nat) : M unit :=
  do v <- values src; assign dst v.

Inductive space :=
  | P1xP1                 (* FunctionSpace(domain, P1*P1) *)
  | P1xP1_sub (i : nat)   (* V.sub(i) *)
  | CG1.                  (* FunctionSpace(domain, ("CG", 1)) *)

Record DirichletBC := dirichletbc {
  bc_value : R;
  bc_dofs : list nat;
  bc_space : space
}.

(** The vertices on the boundary of an interval mesh: its two ends. *)
Definition boundary_vertices (x : list R) : list nat :=
  match length x with
  | O | 1%nat => []
  | S (S n) => [O; S n]
  end.

(** [locate_entities_boundary(domain, 0, marker)]: the boundary vertices
    whose coordinate satisfies [marker]. *)
Definition locate_entities_boundary (x : list R) (marker : R -> bool)
  : list nat :=
  List.filter (fun j => marker (x !!! j)) (boundary_vertices x).

(** [locate_dofs_topological(V, 0, facets)]: a P1 space has one degree of
    freedom per vertex. *)
Definition locate_dofs_topological (V : space) (facets : list nat)
  : list nat := facets.

(** The boundary vertices left free by the Dirichlet conditions [bcs]: a
    test function vanishes at the constrained vertices, so an integral
    over [ds] acts on these vertices only. *)
Definition free_boundary (x : list R) (bcs : list DirichletBC) : list nat :=
  List.filter
    (fun j => negb (existsb (fun bc => existsb (Nat.eqb j) (bc_dofs bc)) bcs))
    (boundary_vertices x).

Record NonlinearProblem := {
  residual : form;
  unknown : loc;
  bcs_of : list DirichletBC
}.

(** The collaborators of the core: the Newton solve of a nonlinear
    problem (the new nodal values of the unknown, or an exception when the
    iteration does not converge), the solve of a linear problem, and the
    scattered-data interpolation of scipy. *)
Class External := {
  NewtonSolver_solve : NonlinearProblem -> list R -> heap -> res fem_function;
  LinearProblem_solve : form -> form -> list DirichletBC -> list R -> list R;
  griddata : list R -> list R -> list R -> list R
}.

(** The collaborator of the stress diagnostic: the interpolation of the
    derivative [Dx(w, 0)] of a P1 field (constant on each cell) into the
    P1 space, from the mesh and the nodal values of [w] to nodal values. *)
Class Differentiation := {
  interpolate_Dx : list R -> list R -> list R
}.

(** The top boundary condition, a Python dictionary with the keys
    ['type'] and ['value']. *)
Record bc_spec := {
  bc_type : string;
  bc_top_value : R
}.

(** ** Contracts of the collaborators *)

(** Vertex coordinates in strictly increasing order. *)
Definition increasing (x : list R) : Prop :=
  forall k, (S k < length x)%nat -> x !!! k < x !!! S k.

(** The slope of the piecewise-linear field [u] on the cell between the
    vertices [j] and [j+1] of the mesh [x]. *)
Definition slope (x u : list R) (j : nat) : R :=
  (u !!! S j - u !!! j) / (x !!! S j - x !!! j).

(** The equation of vertex [j] in the P1 discretisation of
    [Dx(disp)*Dx(v)*dx = 0]: the slopes on the two cells around the vertex
    agree; an end vertex has a single cell, whose slope is 0. *)
Definition laplace_row (x u : list R) (j : nat) : Prop :=
  match j with
  | O => 0
  | S i => slope x u i
  end = if decide (S j < length x)%nat then slope x u j else 0.

(** [u] solves the discrete Laplace problem on the mesh [x] under the
    Dirichlet conditions [bcs]. *)
Record solves_laplace (x : list R) (bcs : list DirichletBC) (u : list R)
  : Prop := {
  laplace_length : length u = length x;
  laplace_dirichlet :
    forall bc j, In bc bcs -> In j (bc_dofs bc) -> u !!! j = bc_value bc;
  laplace_rows :
    forall j, (j < length x)%nat ->
      (forall bc, In bc bcs -> ~ In j (bc_dofs bc)) ->
      laplace_row x u j
}.

(** An interpolation routine returns one value for each target point. *)
Definition one_value_per_point (g : list R -> list R -> list R -> list R)
  : Prop :=
  forall points values xi, length (g points values xi) = length xi.

(** Linear interpolation between increasing points stays above every lower
    bound of the data, for targets inside the range of the points. *)
Definition within_data (g : list R -> list R -> list R -> list R) : Prop :=
  forall points values xi lo,
    points <> [] -> increasing points -> length values = length points ->
    Forall (fun t => array_min points <= t <= array_max points) xi ->
    Forall (fun v => lo <= v) values ->
    Forall (fun v => lo <= v) (g points values xi).

(** ** misc.py *)

Module Misc.
Section Helpers.
Context `{Params} {T : Type} `{PyNum T}.
Local Open Scope py_scope.

Definition K (phi : T) : T :=
  (phi ** a) / ((num 1 - phi) ** b).

Definition max (f1 f2 : T) : T :=
  num 0.5 * (f1 + f2 + ((f1 - f2) ** 2) ** 0.5).

Definition C (phi phi0 : T) : T :=
  (num (4 / 3) + num 1 / phi) / (num (4 / 3) + num 1 / phi0).
End Helpers.

Section Mesh.
Context `{Params} `{External}.

(** The Output Sampler.  [f] is a component of a [Function]; its nodal
    values are resampled on [nz+1] equally spaced points. *)
Definition interp (f : loc * nat) (domain : list R)
  : M (list R * list R) :=
  do vals <- values f;
  let z := domain in
  let Z := linspace (array_min z) (array_max z) (nz + 1) in
  let points := z in
  let values := vals in
  let points_i := Z in
  let F := griddata points values points_i in
  ret (points_i, F).

(** The Dirichlet conditions of the displacement problem: [w_top] on the
    boundary vertices close to [H], 0 on those close to 0. *)
Definition displacement_bcs (domain : list R) (w_top : R)
  : list DirichletBC :=
  let V := CG1 in
  let H := geometry_max domain in
  let facets_t := locate_entities_boundary domain (fun x => isclose x H) in
  let facets_b := locate_entities_boundary domain (fun x => isclose x 0) in
  let dofs_t := locate_dofs_topological V facets_t in
  let dofs_b := locate_dofs_topological V facets_b in
  let bc_top := dirichletbc w_top dofs_t V in
  let bc_base := dirichletbc 0 dofs_b V in
  [bc_top; bc_base].

(** The displacement of the vertices: the solution of Laplace's equation
    [Dx(disp)*Dx(v)*dx = 0*v*dx] under these conditions. *)
Definition displacement (domain : list R) (w_top : R) : list R :=
  let bcs := displacement_bcs domain w_top in
  let disp := TrialFunction in
  let v := TestFunctions 0 in
  let a := integrate (Product (Dx disp 0) (Dx v 0)) dx in
  let f := Constant 0 in
  let L := integrate (Product f v) dx in
  LinearProblem_solve a L bcs domain.

(** The Mesh Motion step.  [w_top] is the last nodal value of the
    velocity ([x.array[-1]]; 0 stands for the exception on an empty
    array).  The mesh is moved in place and returned: the model returns
    the moved coordinates. *)
Definition move_mesh (domain : list R) (sol : loc) : M (list R) :=
  do w_top <- values (sol, O);
  let w_top := List.last w_top 0 in
  let disp_vv := displacement domain w_top in
  let z := domain in
  do z <- lift (iadd z (map (Rmult dt) disp_vv));
  ret z.
End Mesh.

Section Diagnostics.
Context `{Params} `{Differentiation}.

(** The effective stress [(1-phi)*C(phi,phi0)*(dw/dz)] at the vertices:
    [phi] and [w_z] are P1 fields, and the interpolation of the expression
    takes its value at each vertex. *)
Definition get_stress (sol : loc) (domain : list R) : M (list R) :=
  do phi <- values (sol, 1%nat);
  do w <- values (sol, 0%nat);
  let w_z := interpolate_Dx domain w in
  let f := fun phi w_z => (1 - phi) * C phi phi0 * w_z in
  let sigma := zip_with f phi w_z in
  ret sigma.
End Diagnostics.
End Misc.

(** ** solvers.py *)

Module Solvers.
Section Helpers.
Context `{Params} {T : Type} `{PyNum T}.
Local Open Scope py_scope.

Definition K (phi : T) : T :=
  (phi ** a) / ((num 1 - phi) ** b).

Definition max (f1 f2 : T) : T :=
  num 0.5 * (f1 + f2 + ((f1 - f2) ** 2) ** 0.5).
End Helpers.

Section Solver.
Context `{Params} `{External}.
Local Open Scope py_scope.

(** The Residual Builder.  [eps**2], [1-theta] are Python numbers when
    they meet the expressions. *)
Definition weak_form (w w_t w_n phi phi_t phi_n : expr) (bc_top : bc_spec)
  : form :=
  let w_theta := num theta * w + num (1 - theta)%R * w_n in
  let phi_theta := num theta * phi + num (1 - theta)%R * phi_n in
  let F_w :=
    form_add (form_add
      (integrate ((num (rpow eps 2) / K phi) * w * w_t) dx)
      (integrate ((num 1 - phi) * Dx w 0 * Dx w_t 0) dx))
      (integrate ((num 1 - phi) * num alpha * w_t) dx) in
  let F_w :=
    if String.eqb (bc_type bc_top) "stress"
    then form_add F_w (integrate (num (bc_top_value bc_top) * w_t) ds)
    else F_w in
  let F_phi :=
    form_sub (form_add
      (integrate ((phi - phi_n) * phi_t) dx)
      (integrate (num dt * w_theta * Dx phi_theta 0 * phi_t) dx))
      (integrate (num dt * (num 1 - phi_theta) * Dx w_theta 0 * phi_t) dx) in
  let F_phi :=
    form_add F_phi (integrate ((phi - max (num phi_min) phi) * phi_t) dx) in
  form_add F_w F_phi.

(** ASSEMBLE_BC of the Nonlinear Step Solver. *)
Definition boundary_conditions (domain : list R) (bc_top : bc_spec)
  : list DirichletBC :=
  let V := P1xP1 in
  let H := geometry_max domain in
  let facets_t := locate_entities_boundary domain (fun x => isclose x H) in
  let facets_b := locate_entities_boundary domain (fun x => isclose x 0) in
  let dofs_t := locate_dofs_topological (P1xP1_sub 0) facets_t in
  let dofs_b := locate_dofs_topological (P1xP1_sub 0) facets_b in
  let bc_b := dirichletbc 0 dofs_b (P1xP1_sub 0) in
  if String.eqb (bc_type bc_top) "velocity"
  then
    let bc_t := dirichletbc (bc_top_value bc_top) dofs_t (P1xP1_sub 0) in
    [bc_b; bc_t]
  else [bc_b].

(** [split(f)] *)
Definition split (f : loc) : expr * expr :=
  (Coefficient f 0, Coefficient f 1).

(** [NonlinearProblem(F, sol, bcs)] for the step from [sol_n]. *)
Definition nonlinear_problem (domain : list R) (sol sol_n : loc)
    (bc_top : bc_spec) : NonlinearProblem :=
  let '(w, phi) := split sol in
  let '(w_n, phi_n) := split sol_n in
  let '(w_t, phi_t) := (TestFunctions 0, TestFunctions 1) in
  let bcs := boundary_conditions domain bc_top in
  let F := weak_form w w_t w_n phi phi_t phi_n bc_top in
  {| residual := F; unknown := sol; bcs_of := bcs |}.

(** [solver.solve(sol)]: the unknown is overwritten with the solution, or
    the solver raises. *)
Definition solver_solve (problem : NonlinearProblem) (domain : list R)
  : M unit :=
  fun h => match NewtonSolver_solve problem domain h with
           | Ok f => (Ok tt, <[unknown problem := f]> h)
           | Raise e => (Raise e, h)
           end.

(** CLAMP: [Phi.x.array[Phi.x.array<phi_min] = 1.01*phi_min] *)
Definition clamp (Phi : list R) : list R :=
  map (fun v => if Rlt_dec v phi_min then (1.01 * phi_min)%R else v) Phi.

(** INIT: the new [Function] and, from the previous step, its initial
    guess for the Newton iteration. *)
Definition initial_guess (domain : list R) (sol_n : loc) : M loc :=
  do sol <- new_Function (length domain);
  run interpolate (sol, 0%nat) (sol_n, 0%nat);
  run interpolate (sol, 1%nat) (sol_n, 1%nat);
  ret sol.

(** The Nonlinear Step Solver. *)
Definition solve_pde (domain : list R) (sol_n : loc) (bc_top : bc_spec)
  : M loc :=
  do sol <- initial_guess domain sol_n;
  let problem := nonlinear_problem domain sol sol_n bc_top in
  run solver_solve problem domain;
  do Phi <- values (sol, 1%nat);
  let Phi := clamp Phi in
  run assign (sol, 1%nat) Phi;
  ret sol.

Definition outputs : Type := ndarray * ndarray * ndarray.

(** One pass through the body of the loop of [solve], for the index [i];
    it hands on the moved mesh, the arrays and the new solution. *)
Definition time_step (i : nat) (domain : list R) (sol_n : loc)
    (bc_top : bc_spec) (out : outputs) : M (list R * outputs * loc) :=
  let '(w_arr, phi_arr, z_arr) := out in
  do sol <- solve_pde domain sol_n bc_top;
  do '(z_i, w_i) <- Misc.interp (sol, 0%nat) domain;
  do '(z_i, phi_i) <- Misc.interp (sol, 1%nat) domain;
  do w_arr <- lift (set_row w_arr i w_i);
  do phi_arr <- lift (set_row phi_arr i phi_i);
  do z_arr <- lift (set_row z_arr i z_i);
  do domain <- Misc.move_mesh domain sol;
  run interpolate (sol_n, 0%nat) (sol, 0%nat);
  run interpolate (sol_n, 1%nat) (sol, 1%nat);
  ret (domain, (w_arr, phi_arr, z_arr), sol).

(** [for i in range(nt)] *)
Fixpoint time_steps (range : list nat) (domain : list R) (sol_n : loc)
    (bc_top : bc_spec) (out : outputs) : M outputs :=
  match range with
  | [] => ret out
  | i :: range' =>
      do '(domain, out, _) <- time_step i domain sol_n bc_top out;
      time_steps range' domain sol_n bc_top out
  end.

(** The Time-Marching Driver. *)
Definition solve (domain : list R) (initial : loc) (bc_top : bc_spec)
  : M outputs :=
  let w_arr := zeros (nt, nz) in
  let phi_arr := zeros (nt, nz) in
  let z_arr := zeros (nt, nz) in
  let sol_n := initial in
  time_steps (seq 0 nt) domain sol_n bc_top (w_arr, phi_arr, z_arr).
End Solver.
End Solvers.

(** ** A concrete environment

    Values of the parameters and instances of the collaborators on which
    the contracts can be checked: linear interpolation between increasing
    points, and the affine displacement between a fixed base and a top
    moving at [w_top]. *)

Definition example_params : Params := {|
  a := 3;
  b := 2;
  alpha := 1;
  dt := 0.5;
  eps := 1;
  nt := 1;
  nz := 1;
  phi_min := 0.01;
  theta := 0.5;
  phi0 := 0.5
|}.

(** The piecewise-linear interpolant of [values] at increasing [points],
    continued by the last value. *)
Fixpoint interp1d (points values : list R) (t : R) {struct points} : R :=
  match points, values with
  | p0 :: ps, v0 :: vs =>
      match ps, vs with
      | p1 :: _, v1 :: _ =>
          if Rle_dec t p1 then v0 + (t - p0) * ((v1 - v0) / (p1 - p0))
          else interp1d ps vs t
      | _, _ => v0
      end
  | _, _ => 0
  end.

(** The affine field that is 0 at the first vertex and the value of the
    first boundary condition at the last. *)
Definition affine_displacement (bcs : list DirichletBC) (x : list R)
  : list R :=
  let w_top := match bcs with bc :: _ => bc_value bc | [] => 0 end in
  map (fun z => w_top * ((z - array_min x) / (array_max x - array_min x))) x.

Definition example_solution : fem_function :=
  {| dofs0 := [0; -1]; dofs1 := [0.005; 0.5] |}.

Definition example_external : External := {|
  NewtonSolver_solve := fun _ _ _ => Ok example_solution;
  LinearProblem_solve := fun _ _ bcs x => affine_displacement bcs x;
  griddata := fun points values xi => map (interp1d points values) xi
|}.

Definition example_mesh : list R := [0; 1].


(** A solver that returns the value of the first boundary condition at
    every vertex, a mesh away from [z = 0], and a solution that moves
    faster at the top. *)
Definition example_external_shift : External := {|
  NewtonSolver_solve := fun _ _ _ => Ok example_solution;
  LinearProblem_solve := fun _ _ bcs x =>
    map (fun _ => match bcs with bc :: _ => bc_value bc | [] => 0 end) x;
  griddata := fun points values xi => map (interp1d points values) xi
|}.

(** A Newton solver that never converges. *)
Definition example_external_failing : External := {|
  NewtonSolver_solve := fun _ _ _ => Raise RuntimeError;
  LinearProblem_solve := fun _ _ bcs x => affine_displacement bcs x;
  griddata := fun points values xi => map (interp1d points values) xi
|}.

(** Parameters with a negative porosity floor. *)
Definition example_params_negative_floor : Params := {|
  a := 3;
  b := 2;
  alpha := 1;
  dt := 0.5;
  eps := 1;
  nt := 1;
  nz := 1;
  phi_min := -1;
  theta := 0.5;
  phi0 := 0.5
|}.

Definition example_mesh_off_origin : list R := [1; 2].

Definition example_heap_fast : heap :=
  {[ 0%nat := {| dofs0 := [0; -2]; dofs1 := [0.5; 0.5] |} ]}.

(** The derivative of a P1 field at a vertex, taken from the cell on its
    right (from the cell on its left at the last vertex). *)
Fixpoint cell_slopes (x u : list R) : list R :=
  match x, u with
  | x0 :: ((x1 :: _) as xs), u0 :: ((u1 :: _) as us) =>
      (u1 - u0) / (x1 - x0) :: cell_slopes xs us
  | _, _ => []
  end.

Definition example_differentiation : Differentiation := {|
  interpolate_Dx := fun x u =>
    let s := cell_slopes x u in s ++ [List.last s 0]
|}.

Definition example_heap : heap :=
  {[ 0%nat := {| dofs0 := [0; -1]; dofs1 := [0.5; 0.5] |} ]}.

(** * Properties *)

Lemma Int_part_IZR (z : Z) : Int_part (IZR z) = z.
Proof. symmetry. apply Int_part_spec. lra. Qed.

Lemma rpow_2 (x : R) : rpow x 2 = x * x.
Proof.
  unfold rpow. rewrite (Int_part_IZR 2).
  destruct (Req_dec_T 2 2) as [_|Hn]; [|contradiction].
  simpl. lra.
Qed.

Lemma Int_part_half : Int_part 0.5 = 0%Z.
Proof. symmetry. apply Int_part_spec. lra. Qed.

Lemma rpow_half (x : R) : 0 <= x -> rpow x 0.5 = sqrt x.
Proof.
  intros Hx. unfold rpow. rewrite Int_part_half.
  destruct (Req_dec_T 0.5 0) as [Hc|_]; [lra|].
  destruct (Rlt_dec 0 x) as [Hp|Hz].
  - replace 0.5 with (/ 2) by lra. now apply Rpower_sqrt.
  - replace x with 0 by lra. now rewrite sqrt_0.
Qed.

Lemma rpow_pos (x y : R) : 0 < x -> rpow x y = Rpower x y.
Proof.
  intros Hx. unfold rpow.
  destruct (Req_dec_T y (IZR (Int_part y))) as [Hy|_].
  - rewrite Hy at 2. now apply powerRZ_Rpower.
  - destruct (Rlt_dec 0 x); [reflexivity|contradiction].
Qed.

(** ** The constitutive helpers on real numbers *)

Lemma sqrt_square_abs (x : R) : sqrt (x * x) = Rabs x.
Proof. fold (Rsqr x). apply sqrt_Rsqr_abs. Qed.

Lemma Solvers_max_Rmax (f1 f2 : R) : Solvers.max f1 f2 = Rmax f1 f2.
Proof.
  unfold Solvers.max; simpl.
  assert (Hsq : 0 <= rpow (f1 - f2) 2) by (rewrite rpow_2; apply Rle_0_sqr).
  rewrite (rpow_half _ Hsq), rpow_2, sqrt_square_abs.
  unfold Rmax, Rabs.
  destruct (Rle_dec f1 f2), (Rcase_abs (f1 - f2)); lra.
Qed.

Lemma Misc_max_Rmax (f1 f2 : R) : Misc.max f1 f2 = Rmax f1 f2.
Proof. exact (Solvers_max_Rmax f1 f2). Qed.


(** The value of the symbolic [max] at a point is the [max] of the values. *)
Lemma eval_max (p : point) (e1 e2 : expr) :
  eval p (Solvers.max e1 e2) = Solvers.max (eval p e1) (eval p e2).
Proof. reflexivity. Qed.

Lemma eval_K `{Params} (p : point) (e : expr) :
  eval p (Solvers.K e) = Solvers.K (eval p e).
Proof. reflexivity. Qed.

(** C4. The coefficient [phi - max(phi_min, phi)] of the penalty term is
    zero wherever [phi >= phi_min]; wherever [phi < phi_min] it is
    [phi - phi_min], a negative number.  The residual ends with the penalty
    integral, whose integrand has at every point the value of that
    coefficient times the value of [phi_t]. *)
Theorem penalty_coefficient `{Params} :
  (forall phi : R, phi_min <= phi -> phi - Solvers.max phi_min phi = 0) /\
  (forall phi : R, phi < phi_min ->
     phi - Solvers.max phi_min phi = phi - phi_min /\
     phi - Solvers.max phi_min phi < 0) /\
  (forall w w_t w_n phi phi_t phi_n bc_top, exists F penalty,
     Solvers.weak_form w w_t w_n phi phi_t phi_n bc_top
       = F ++ [Integral penalty dx true] /\
     forall p : point,
       eval p penalty
       = (eval p phi - Solvers.max phi_min (eval p phi)) * eval p phi_t).
Proof.
  split; [|split].
  - intros phi Hphi. rewrite Solvers_max_Rmax. unfold Rmax.
    destruct (Rle_dec phi_min phi); lra.
  - intros phi Hphi. rewrite Solvers_max_Rmax. unfold Rmax.
    destruct (Rle_dec phi_min phi); lra.
  - intros w w_t w_n phi phi_t phi_n bc_top.
    unfold Solvers.weak_form, form_add.
    eexists _, _. split.
    + rewrite !app_assoc. reflexivity.
    + intros p. reflexivity.
Qed.

(** C8. On every carrier of the Python operators the two definitions of
    [K] agree at every [phi], and the two definitions of [max] agree at
    every pair. *)
Theorem duplicated_helpers_agree `{Params} (T : Type) `{PyNum T} :
  (forall phi : T, Misc.K phi = Solvers.K phi) /\
  (forall f1 f2 : T, Misc.max f1 f2 = Solvers.max f1 f2).
Proof. split; reflexivity. Qed.

Lemma K_Rpower `{Params} (phi : R) :
  0 < phi < 1 -> Solvers.K phi = Rpower phi a / Rpower (1 - phi) b.
Proof.
  intros [H0 H1]. unfold Solvers.K; simpl.
  rewrite !rpow_pos by lra. reflexivity.
Qed.

Lemma Rpower_pos (x y : R) : 0 < Rpower x y.
Proof. unfold Rpower. apply exp_pos. Qed.

Lemma Rdiv_le_mono (n1 n2 d1 d2 : R) :
  0 < n1 <= n2 -> 0 < d2 <= d1 -> n1 / d1 <= n2 / d2.
Proof.
  intros [Hn Hn'] [Hd Hd']. unfold Rdiv.
  apply Rmult_le_compat; try lra.
  - left. apply Rinv_0_lt_compat. lra.
  - apply Rinv_le_contravar; lra.
Qed.

Lemma Rdiv_lt_mono (n1 n2 d1 d2 : R) :
  0 < n1 <= n2 -> 0 < d2 <= d1 -> n1 < n2 \/ d2 < d1 -> n1 / d1 < n2 / d2.
Proof.
  intros [Hn Hn'] [Hd Hd'] Hs. unfold Rdiv.
  assert (Hi1 : 0 < / d1) by (apply Rinv_0_lt_compat; lra).
  assert (Hi2 : 0 < / d2) by (apply Rinv_0_lt_compat; lra).
  assert (Hi : / d1 <= / d2) by (apply Rinv_le_contravar; lra).
  destruct Hs as [Hs|Hs].
  - apply Rlt_le_trans with (n2 * / d1).
    + apply Rmult_lt_compat_r; lra.
    + apply Rmult_le_compat_l; lra.
  - assert (/ d1 < / d2) by (apply Rinv_lt_contravar; [apply Rmult_lt_0_compat|]; lra).
    apply Rle_lt_trans with (n2 * / d1).
    + apply Rmult_le_compat_r; lra.
    + apply Rmult_lt_compat_l; lra.
Qed.

(** C7. With a non-negative floor [phi_min] and non-negative exponents [a]
    and [b] (the constants of [params.py]), [K] of either module is positive
    on the open interval [(phi_min, 1)] and increases there: [K p <= K q]
    for [p < q], strictly as soon as one exponent is positive. *)
Theorem K_positive_increasing `{Params} :
  0 <= phi_min -> 0 <= a -> 0 <= b ->
  (forall phi, phi_min < phi < 1 ->
     0 < Solvers.K phi /\ 0 < Misc.K phi) /\
  (forall p q, phi_min < p -> p < q -> q < 1 ->
     Solvers.K p <= Solvers.K q /\ Misc.K p <= Misc.K q /\
     (0 < a \/ 0 < b -> Solvers.K p < Solvers.K q /\ Misc.K p < Misc.K q)).
Proof.
  intros Hmin Ha Hb.
  change (@Misc.K) with (@Solvers.K).
  split.
  - intros phi [Hlo Hhi]. rewrite K_Rpower by lra.
    split; apply Rdiv_lt_0_compat; apply Rpower_pos.
  - intros p q Hp Hpq Hq. rewrite !K_Rpower by lra.
    assert (Hn : Rpower p a <= Rpower q a) by (apply Rle_Rpower_l; lra).
    assert (Hd : Rpower (1 - q) b <= Rpower (1 - p) b)
      by (apply Rle_Rpower_l; lra).
    pose proof (Rpower_pos p a). pose proof (Rpower_pos (1 - q) b).
    assert (Hle : Rpower p a / Rpower (1 - p) b
                  <= Rpower q a / Rpower (1 - q) b)
      by (apply Rdiv_le_mono; lra).
    repeat split; try exact Hle.
    all: apply Rdiv_lt_mono; try lra.
    all: match goal with Hs : _ \/ _ |- _ => destruct Hs as [Hpos|Hpos] end;
      [left; apply Rlt_Rpower_l; lra | right; apply Rlt_Rpower_l; lra].
Qed.

(** ** Boundary-condition dispatch *)

(** With the base condition alone, on a mesh whose base vertex is close to
    0 and whose top vertex is not, the top vertex is the one boundary
    vertex left free. *)
Lemma free_boundary_base_only (x : list R) (v : R) (V : space) :
  (2 <= length x)%nat ->
  isclose (x !!! 0%nat) 0 = true ->
  isclose (x !!! (length x - 1)%nat) 0 = false ->
  free_boundary x
    [dirichletbc v (locate_entities_boundary x (fun y => isclose y 0)) V]
  = [(length x - 1)%nat].
Proof.
  intros HN Hb0 HbN.
  unfold free_boundary, locate_entities_boundary.
  destruct (length x) as [|[|n]] eqn:Hlen; try lia.
  unfold boundary_vertices. rewrite Hlen.
  replace (S (S n) - 1)%nat with (S n) in * by lia.
  simpl. rewrite Hb0, HbN. reflexivity.
Qed.


(** The residual is the momentum part, the traction integral when the type
    is ['stress'], and the porosity part; only the traction is integrated
    over the boundary. *)
Lemma weak_form_traction `{Params} (w w_t w_n phi phi_t phi_n : expr) :
  exists F_w F_phi : form,
    Forall (fun I => over I = dx) F_w /\
    Forall (fun I => over I = dx) F_phi /\
    forall bc_top,
      Solvers.weak_form w w_t w_n phi phi_t phi_n bc_top
      = F_w
        ++ (if String.eqb (bc_type bc_top) "stress"
            then [Integral (Product (Constant (bc_top_value bc_top)) w_t)
                    ds true]
            else [])
        ++ F_phi.
Proof.
  eexists _, _. split; [|split]; cycle 2.
  - intros bc_top. unfold Solvers.weak_form, form_add.
    destruct (String.eqb (bc_type bc_top) "stress").
    + rewrite <- (app_assoc _ (integrate _ ds)). reflexivity.
    + reflexivity.
  - repeat constructor.
  - repeat constructor.
Qed.


(** C10. With a type that is neither ['velocity'] nor ['stress'] the base
    condition is the only boundary condition, no integral of the residual
    is over the boundary, the top vertex is left free (on a mesh whose base
    vertex, and not its top vertex, lies at [z = 0]), and [solve_pde]
    returns the solution whenever the Newton solve of that problem
    converges: the unknown type raises nothing. *)
Theorem unknown_bc_type_is_silent `{Params} `{External}
    (domain : list R) (sol_n : loc) (bc_top : bc_spec) (h : heap) :
  bc_type bc_top <> "velocity"%string ->
  bc_type bc_top <> "stress"%string ->
  forall (sol : loc) (guess : heap) (f : fem_function),
    Solvers.initial_guess domain sol_n h = (Ok sol, guess) ->
    let problem := Solvers.nonlinear_problem domain sol sol_n bc_top in
    NewtonSolver_solve problem domain guess = Ok f ->
    bcs_of problem
      = [dirichletbc 0
           (locate_entities_boundary domain (fun x => isclose x 0))
           (P1xP1_sub 0)] /\
    Forall (fun I => over I = dx) (residual problem) /\
    ((2 <= length domain)%nat ->
     isclose (domain !!! 0%nat) 0 = true ->
     isclose (domain !!! (length domain - 1)%nat) 0 = false ->
     free_boundary domain (bcs_of problem) = [(length domain - 1)%nat]) /\
    exists h', Solvers.solve_pde domain sol_n bc_top h = (Ok sol, h').
Proof.
  intros Hv Hs sol guess f Hinit problem Hnewton.
  apply String.eqb_neq in Hv, Hs.
  assert (Hbcs : bcs_of problem
                 = [dirichletbc 0
                      (locate_entities_boundary domain
                         (fun x => isclose x 0))
                      (P1xP1_sub 0)]).
  { unfold problem, Solvers.nonlinear_problem, Solvers.boundary_conditions.
    simpl. rewrite Hv. reflexivity. }
  split; [exact Hbcs|]. split; [|split].
  2: { rewrite Hbcs. apply free_boundary_base_only. }
  - destruct (weak_form_traction (Coefficient sol 0) (TestFunctions 0)
                (Coefficient sol_n 0) (Coefficient sol 1) (TestFunctions 1)
                (Coefficient sol_n 1))
      as (F_w & F_phi & HFw & HFphi & HF).
    unfold problem, Solvers.nonlinear_problem. simpl.
    rewrite HF, Hs, app_nil_l. apply Forall_app; auto.
  - unfold Solvers.solve_pde, bind. rewrite Hinit.
    unfold Solvers.solver_solve. fold problem. rewrite Hnewton.
    eexists. reflexivity.
Qed.

(** ** Running the heap computations *)

Lemma bind_Ok {A B} (m : M A) (k : A -> M B) (h h1 : heap) (x : A) :
  m h = (Ok x, h1) -> bind m k h = k x h1.
Proof. intros Hm. unfold bind. now rewrite Hm. Qed.

Lemma bind_Raise {A B} (m : M A) (k : A -> M B) (h h1 : heap) (e : exn) :
  m h = (Raise e, h1) -> bind m k h = (Raise e, h1).
Proof. intros Hm. unfold bind. now rewrite Hm. Qed.

Lemma bind_Ok_inv {A B} (m : M A) (k : A -> M B) (h h' : heap) (y : B) :
  bind m k h = (Ok y, h') ->
  exists x h1, m h = (Ok x, h1) /\ k x h1 = (Ok y, h').
Proof.
  unfold bind. destruct (m h) as [[x|e] h1]; intros Hk.
  - now exists x, h1.
  - discriminate.
Qed.

Lemma lift_Ok_inv {A} (r : res A) (h h' : heap) (x : A) :
  lift r h = (Ok x, h') -> r = Ok x /\ h' = h.
Proof. unfold lift. now inversion 1. Qed.

Ltac bind_inv H :=
  let x := fresh "x" in
  let h := fresh "h" in
  let Hm := fresh "Hm" in
  apply bind_Ok_inv in H as (x & h & Hm & H).

(** INIT always succeeds: the new object is a fresh reference. *)
Lemma initial_guess_fresh `{Params} (domain : list R) (sol_n : loc) (h : heap) :
  exists guess,
    Solvers.initial_guess domain sol_n h = (Ok (fresh (dom h)), guess) /\
    forall l, l ∈ dom h -> guess !! l = h !! l.
Proof.
  eexists. split; [reflexivity|].
  intros l Hl. cbn [fst snd].
  assert (Hne : fresh (dom h) <> l) by (intros <-; now apply (is_fresh (dom h))).
  now rewrite !lookup_insert_ne by exact Hne.
Qed.

Lemma solve_pde_run `{Params} `{External}
    (domain : list R) (sol_n : loc) (bc_top : bc_spec) (h : heap)
    (sol : loc) (guess : heap) :
  Solvers.initial_guess domain sol_n h = (Ok sol, guess) ->
  Solvers.solve_pde domain sol_n bc_top h
  = match NewtonSolver_solve
            (Solvers.nonlinear_problem domain sol sol_n bc_top) domain guess
    with
    | Ok f =>
        (Ok sol,
         <[sol := {| dofs0 := dofs0 f; dofs1 := Solvers.clamp (dofs1 f) |}]>
           guess)
    | Raise e => (Raise e, guess)
    end.
Proof.
  intros Hinit. unfold Solvers.solve_pde.
  rewrite (bind_Ok _ _ _ _ _ Hinit).
  unfold bind, Solvers.solver_solve.
  destruct (NewtonSolver_solve _ domain guess) as [f|e]; [|reflexivity].
  simpl. rewrite lookup_total_insert_eq, insert_insert_eq. reflexivity.
Qed.

(** The step solver leaves every object that existed before untouched. *)
Lemma solve_pde_frame `{Params} `{External}
    (domain : list R) (sol_n : loc) (bc_top : bc_spec) (h h' : heap)
    (r : res loc) :
  Solvers.solve_pde domain sol_n bc_top h = (r, h') ->
  forall l, l ∈ dom h -> h' !! l = h !! l.
Proof.
  destruct (initial_guess_fresh domain sol_n h) as (guess & Hinit & Hframe).
  rewrite (solve_pde_run _ _ _ _ _ _ Hinit).
  intros Hrun l Hl.
  assert (Hne : fresh (dom h) <> l) by (intros <-; now apply (is_fresh (dom h))).
  destruct (NewtonSolver_solve _ domain guess) as [f|e];
    inversion Hrun; subst.
  - rewrite lookup_insert_ne by exact Hne. now apply Hframe.
  - now apply Hframe.
Qed.

(** ** The porosity floor *)

Lemma clamp_lookup `{Params} (Phi : list R) (j : nat) (v : R) :
  Phi !! j = Some v ->
  Solvers.clamp Phi !! j
  = Some (if Rlt_dec v phi_min then 1.01 * phi_min else v).
Proof.
  intros Hj. unfold Solvers.clamp.
  change (map ?f Phi) with (f <$> Phi).
  now rewrite list_lookup_fmap, Hj.
Qed.

Lemma clamp_floor `{Params} (Phi : list R) :
  0 <= phi_min -> Forall (fun v => phi_min <= v) (Solvers.clamp Phi).
Proof.
  intros Hmin. unfold Solvers.clamp.
  induction Phi as [|v Phi IH]; simpl; constructor; [|exact IH].
  destruct (Rlt_dec v phi_min); lra.
Qed.

Lemma foldl_Rmin_le (xs : list R) (x0 : R) : foldl Rmin x0 xs <= x0.
Proof.
  revert x0. induction xs as [|x xs IH]; intros x0; simpl; [lra|].
  eapply Rle_trans; [apply IH|apply Rmin_l].
Qed.

Lemma foldl_Rmax_ge (xs : list R) (x0 : R) : x0 <= foldl Rmax x0 xs.
Proof.
  revert x0. induction xs as [|x xs IH]; intros x0; simpl; [lra|].
  eapply Rle_trans; [apply Rmax_l|apply IH].
Qed.

Lemma array_min_le_max (x : list R) : array_min x <= array_max x.
Proof.
  destruct x as [|x0 xs]; simpl; [lra|].
  eapply Rle_trans; [apply foldl_Rmin_le|apply foldl_Rmax_ge].
Qed.

(** The points of [linspace] lie between its two ends. *)
Lemma linspace_between (start stop : R) (num : nat) :
  start <= stop ->
  Forall (fun t => start <= t <= stop) (linspace start stop num).
Proof.
  intros Hle. unfold linspace. apply List.Forall_forall. intros t Ht.
  apply in_map_iff in Ht as (i & <- & Hi). apply in_seq in Hi.
  destruct num as [|n]; [lia|]. simpl Nat.sub. rewrite Nat.sub_0_r.
  destruct n as [|n].
  - assert (i = 0%nat) as -> by lia. simpl. lra.
  - assert (Hn : 0 < INR (S n)) by (apply lt_0_INR; lia).
    assert (Hi0 : 0 <= INR i) by apply pos_INR.
    assert (Hin : INR i <= INR (S n)) by (apply le_INR; lia).
    assert (Hfrac : 0 <= INR i / INR (S n) <= 1).
    { split.
      - apply Rmult_le_pos; [exact Hi0|]. left. now apply Rinv_0_lt_compat.
      - apply (Rmult_le_reg_r (INR (S n))); [exact Hn|].
        unfold Rdiv. rewrite Rmult_assoc, Rinv_l by lra. lra. }
    replace (INR i * ((stop - start) / INR (S n)) + start)
      with (start + INR i / INR (S n) * (stop - start))
      by (unfold Rdiv; ring).
    split; nra.
Qed.

Lemma interp_run `{Params} `{External} (f : loc * nat) (domain : list R)
    (h : heap) :
  Misc.interp f domain h
  = (Ok (linspace (array_min domain) (array_max domain) (nz + 1),
         griddata domain (sub (h !!! f.1) f.2)
           (linspace (array_min domain) (array_max domain) (nz + 1))),
     h).
Proof. reflexivity. Qed.

(** C2. Let the Newton solve of the step converge, to [f].  Then
    [solve_pde] returns, and the porosity it returns is that of [f] with
    every nodal value below [phi_min] replaced by [1.01*phi_min] and the
    others kept; for a non-negative [phi_min] all its nodal values are at
    least [phi_min], and so are the values the Output Sampler records for
    the step, the interpolation staying within its data. *)
Theorem clamp_enforces_floor `{Params} `{External}
    (domain : list R) (sol_n : loc) (bc_top : bc_spec) (h : heap) :
  0 <= phi_min ->
  forall (sol : loc) (guess : heap) (f : fem_function),
    Solvers.initial_guess domain sol_n h = (Ok sol, guess) ->
    NewtonSolver_solve
      (Solvers.nonlinear_problem domain sol sol_n bc_top) domain guess
      = Ok f ->
    exists h',
      Solvers.solve_pde domain sol_n bc_top h = (Ok sol, h') /\
      let phi := sub (h' !!! sol) 1 in
      length phi = length (dofs1 f) /\
      (forall j v, dofs1 f !! j = Some v ->
         phi !! j = Some (if Rlt_dec v phi_min then 1.01 * phi_min else v)) /\
      Forall (fun v => phi_min <= v) phi /\
      (within_data griddata -> domain <> [] -> increasing domain ->
       length (dofs1 f) = length domain ->
       exists z_i phi_i,
         Misc.interp (sol, 1%nat) domain h' = (Ok (z_i, phi_i), h') /\
         Forall (fun v => phi_min <= v) phi_i).
Proof.
  intros Hmin sol guess f Hinit Hnewton.
  rewrite (solve_pde_run _ _ _ _ _ _ Hinit), Hnewton.
  eexists. split; [reflexivity|].
  rewrite lookup_total_insert_eq. simpl.
  split; [|split; [|split]].
  - unfold Solvers.clamp. apply length_map.
  - intros j v. apply clamp_lookup.
  - now apply clamp_floor.
  - intros Hg Hne Hinc Hlen. rewrite interp_run. eexists _, _.
    split; [reflexivity|]. simpl. rewrite lookup_total_insert_eq. simpl.
    apply Hg; auto.
    + unfold Solvers.clamp. now rewrite length_map.
    + apply linspace_between, array_min_le_max.
    + now apply clamp_floor.
Qed.

(** ** The driver *)

Lemma set_row_shape (A A' : ndarray) (i : nat) (v : list R) :
  set_row A i v = Ok A' -> shape A' = shape A.
Proof.
  unfold set_row. destruct (broadcast_to v (shape A).2); [|discriminate].
  now inversion 1.
Qed.

(** A row of [n >= 1] entries takes no array of [n + 1] entries. *)
Lemma broadcast_to_longer (v : list R) (n : nat) :
  length v = S n -> (0 < n)%nat -> broadcast_to v n = None.
Proof.
  intros Hlen Hn. unfold broadcast_to.
  destruct (decide (length v = n)) as [Heq|_]; [lia|].
  destruct v as [|c [|c' v]]; simpl in Hlen; try reflexivity; lia.
Qed.

Lemma length_linspace (start stop : R) (num : nat) :
  length (linspace start stop num) = num.
Proof. unfold linspace. now rewrite length_map, length_seq. Qed.

Lemma time_step_shape `{Params} `{External}
    (i : nat) (domain domain' : list R) (sol_n sol : loc) (bc_top : bc_spec)
    (w_arr phi_arr z_arr w_arr' phi_arr' z_arr' : ndarray) (h h' : heap) :
  Solvers.time_step i domain sol_n bc_top (w_arr, phi_arr, z_arr) h
  = (Ok (domain', (w_arr', phi_arr', z_arr'), sol), h') ->
  shape w_arr' = shape w_arr /\ shape phi_arr' = shape phi_arr /\
  shape z_arr' = shape z_arr.
Proof.
  unfold Solvers.time_step. intros Hrun.
  bind_inv Hrun. bind_inv Hrun. destruct x0 as [z_i w_i].
  bind_inv Hrun. destruct x0 as [z_i' phi_i].
  bind_inv Hrun. apply lift_Ok_inv in Hm2 as [Hw ->].
  bind_inv Hrun. apply lift_Ok_inv in Hm2 as [Hphi ->].
  bind_inv Hrun. apply lift_Ok_inv in Hm2 as [Hz ->].
  bind_inv Hrun. bind_inv Hrun. bind_inv Hrun.
  unfold ret in Hrun. inversion Hrun; subst.
  repeat split; eapply set_row_shape; eassumption.
Qed.

Lemma time_steps_shape `{Params} `{External}
    (range : list nat) (domain : list R) (sol_n : loc) (bc_top : bc_spec)
    (w_arr phi_arr z_arr w_arr' phi_arr' z_arr' : ndarray) (h h' : heap) :
  Solvers.time_steps range domain sol_n bc_top (w_arr, phi_arr, z_arr) h
  = (Ok (w_arr', phi_arr', z_arr'), h') ->
  shape w_arr' = shape w_arr /\ shape phi_arr' = shape phi_arr /\
  shape z_arr' = shape z_arr.
Proof.
  revert domain w_arr phi_arr z_arr h.
  induction range as [|i range IH]; intros domain w_arr phi_arr z_arr h; simpl.
  - inversion 1; subst. auto.
  - intros Hrun. bind_inv Hrun.
    destruct x as [[domain1 [[w1 phi1] z1]] sol].
    apply time_step_shape in Hm as (Hw & Hphi & Hz).
    apply IH in Hrun as (Hw' & Hphi' & Hz').
    rewrite Hw', Hphi', Hz'. auto.
Qed.

(** With [nz >= 1] columns the first row assignment of a step raises; the
    step has changed no object that existed before it. *)
Lemma time_step_raises `{Params} `{External}
    (i : nat) (domain : list R) (sol_n : loc) (bc_top : bc_spec)
    (w_arr phi_arr z_arr : ndarray) (h : heap) :
  one_value_per_point griddata ->
  (shape w_arr).2 = nz -> (0 < nz)%nat ->
  exists e h',
    Solvers.time_step i domain sol_n bc_top (w_arr, phi_arr, z_arr) h
    = (Raise e, h') /\
    (forall l, l ∈ dom h -> h' !! l = h !! l) /\
    (forall sol guess f,
       Solvers.initial_guess domain sol_n h = (Ok sol, guess) ->
       NewtonSolver_solve
         (Solvers.nonlinear_problem domain sol sol_n bc_top) domain guess
         = Ok f ->
       e = ValueError).
Proof.
  intros Hg Hcols Hnz.
  destruct (Solvers.solve_pde domain sol_n bc_top h) as [[sol|e] h1] eqn:Hpde.
  - exists ValueError, h1. split; [|split].
    + unfold Solvers.time_step.
      rewrite (bind_Ok _ _ _ _ _ Hpde).
      rewrite (bind_Ok _ _ _ _ _ (interp_run _ _ _)).
      rewrite (bind_Ok _ _ _ _ _ (interp_run _ _ _)).
      apply bind_Raise. unfold lift, set_row.
      rewrite broadcast_to_longer; [reflexivity| |lia].
      rewrite Hg, length_linspace, Hcols. lia.
    + now apply (solve_pde_frame _ _ _ _ _ _ Hpde).
    + reflexivity.
  - exists e, h1. split; [|split].
    + unfold Solvers.time_step. now rewrite (bind_Raise _ _ _ _ _ Hpde).
    + now apply (solve_pde_frame _ _ _ _ _ _ Hpde).
    + intros sol guess f Hinit Hnewton.
      rewrite (solve_pde_run _ _ _ _ _ _ Hinit), Hnewton in Hpde.
      discriminate.
Qed.

(** A completed step has copied the two components of the new solution
    into the object [sol_n]. *)
Lemma time_step_rolls_forward `{Params} `{External}
    (i : nat) (domain domain' : list R) (sol_n sol : loc) (bc_top : bc_spec)
    (out out' : Solvers.outputs) (h h' : heap) :
  Solvers.time_step i domain sol_n bc_top out h
  = (Ok (domain', out', sol), h') ->
  sub (h' !!! sol_n) 0 = sub (h' !!! sol) 0 /\
  sub (h' !!! sol_n) 1 = sub (h' !!! sol) 1.
Proof.
  destruct out as [[w_arr phi_arr] z_arr].
  unfold Solvers.time_step. intros Hrun.
  bind_inv Hrun. bind_inv Hrun. destruct x0 as [z_i w_i].
  bind_inv Hrun. destruct x0 as [z_i' phi_i].
  bind_inv Hrun. bind_inv Hrun. bind_inv Hrun. bind_inv Hrun.
  unfold interpolate, values, assign, bind, ret in Hrun.
  cbn [fst snd] in Hrun. inversion Hrun; subst; clear Hrun.
  destruct (decide (sol_n = sol)) as [->|Hne].
  - rewrite !lookup_total_insert_eq. auto.
  - rewrite !lookup_total_insert_eq.
    rewrite !(lookup_total_insert_ne _ sol_n sol) by exact Hne.
    simpl. auto.
Qed.

Lemma solve_raises `{Params} `{External}
    (domain : list R) (initial : loc) (bc_top : bc_spec) (h : heap) :
  one_value_per_point griddata ->
  (0 < nt)%nat -> (0 < nz)%nat ->
  exists e h',
    Solvers.solve domain initial bc_top h = (Raise e, h') /\
    (forall l, l ∈ dom h -> h' !! l = h !! l) /\
    (forall sol guess f,
       Solvers.initial_guess domain initial h = (Ok sol, guess) ->
       NewtonSolver_solve
         (Solvers.nonlinear_problem domain sol initial bc_top) domain guess
         = Ok f ->
       e = ValueError).
Proof.
  intros Hg Hnt Hnz. unfold Solvers.solve.
  destruct nt as [|n] eqn:Hn; [lia|]. simpl seq.
  destruct (time_step_raises 0 domain initial bc_top
              (zeros (S n, nz)) (zeros (S n, nz)) (zeros (S n, nz)) h
              Hg eq_refl Hnz) as (e & h' & Hstep & Hframe & Hexn).
  exists e, h'. split; [|split]; auto.
  simpl Solvers.time_steps. now apply bind_Raise.
Qed.

(** C1. The arrays [solve] returns have the shape [(nt, nz)] they were
    allocated with, not [(nt, nz+1)]; and with [nt >= 1] and [nz >= 1]
    [solve] returns nothing: the sampled row of [nz+1] values does not fit
    the row of [nz] entries, and the first row assignment raises
    [ValueError] (unless the Newton solve has raised before). *)
Theorem solve_rows_do_not_fit `{Params} `{External}
    (domain : list R) (initial : loc) (bc_top : bc_spec) (h : heap) :
  one_value_per_point griddata ->
  (forall w_arr phi_arr z_arr h',
     Solvers.solve domain initial bc_top h
       = (Ok (w_arr, phi_arr, z_arr), h') ->
     shape w_arr = (nt, nz) /\ shape phi_arr = (nt, nz) /\
     shape z_arr = (nt, nz)) /\
  ((0 < nt)%nat -> (0 < nz)%nat ->
   exists e h',
     Solvers.solve domain initial bc_top h = (Raise e, h') /\
     (forall sol guess f,
        Solvers.initial_guess domain initial h = (Ok sol, guess) ->
        NewtonSolver_solve
          (Solvers.nonlinear_problem domain sol initial bc_top) domain guess
          = Ok f ->
        e = ValueError)).
Proof.
  intros Hg. split.
  - intros w_arr phi_arr z_arr h' Hrun. unfold Solvers.solve in Hrun.
    now apply time_steps_shape in Hrun.
  - intros Hnt Hnz.
    destruct (solve_raises domain initial bc_top h Hg Hnt Hnz)
      as (e & h' & Hrun & _ & Hexn).
    now exists e, h'.
Qed.

(** C9. [solve] works on the caller's object: the loop runs with [initial]
    itself as [sol_n], and a completed step leaves in it the two components
    of the step's solution.  But with [nt >= 1] and [nz >= 1] no step
    completes: [solve] raises at the first row assignment, and the object
    [initial] is as the caller passed it. *)
Theorem solve_raises_before_update `{Params} `{External}
    (domain : list R) (initial : loc) (bc_top : bc_spec) (h : heap) :
  one_value_per_point griddata ->
  (0 < nt)%nat -> (0 < nz)%nat -> initial ∈ dom h ->
  Solvers.solve domain initial bc_top
  = Solvers.time_steps (seq 0 nt) domain initial bc_top
      (zeros (nt, nz), zeros (nt, nz), zeros (nt, nz)) /\
  (forall i domain' out out' sol h0 h1,
     Solvers.time_step i domain initial bc_top out h0
       = (Ok (domain', out', sol), h1) ->
     sub (h1 !!! initial) 0 = sub (h1 !!! sol) 0 /\
     sub (h1 !!! initial) 1 = sub (h1 !!! sol) 1) /\
  exists e h',
    Solvers.solve domain initial bc_top h = (Raise e, h') /\
    h' !! initial = h !! initial.
Proof.
  intros Hg Hnt Hnz Hin. split; [reflexivity|]. split.
  - intros i domain' out out' sol h0 h1. apply time_step_rolls_forward.
  - destruct (solve_raises domain initial bc_top h Hg Hnt Hnz)
      as (e & h' & Hrun & Hframe & _).
    exists e, h'. auto.
Qed.

(** ** Mesh motion *)

Lemma increasing_tail (x0 : R) (xs : list R) :
  increasing (x0 :: xs) -> increasing xs.
Proof. intros Hinc k Hk. apply (Hinc (S k)). simpl. lia. Qed.

Lemma increasing_lt (x : list R) (i j : nat) :
  increasing x -> (i < j < length x)%nat -> x !!! i < x !!! j.
Proof.
  intros Hinc [Hij Hj]. induction j as [|j IH]; [lia|].
  destruct (decide (i = j)) as [->|Hne].
  - now apply Hinc.
  - apply Rlt_trans with (x !!! j); [apply IH; lia|now apply Hinc].
Qed.

Lemma foldl_Rmax_increasing (xs : list R) (x0 : R) :
  increasing (x0 :: xs) -> foldl Rmax x0 xs = (x0 :: xs) !!! length xs.
Proof.
  revert x0. induction xs as [|x1 xs IH]; intros x0 Hinc; [reflexivity|].
  simpl foldl. rewrite Rmax_right.
  - rewrite IH by (eapply increasing_tail; exact Hinc). reflexivity.
  - left. apply (Hinc 0%nat). simpl. lia.
Qed.

Lemma foldl_Rmin_lower (xs : list R) (x0 : R) :
  (forall k, (k < length xs)%nat -> x0 <= xs !!! k) -> foldl Rmin x0 xs = x0.
Proof.
  induction xs as [|x1 xs IH]; intros Hlow; [reflexivity|].
  simpl foldl. rewrite Rmin_left.
  - apply IH. intros k Hk. apply (Hlow (S k)). simpl. lia.
  - apply (Hlow 0%nat). simpl. lia.
Qed.

(** On an increasing mesh the largest coordinate is the last one and the
    smallest the first. *)
Lemma array_max_increasing (x : list R) :
  increasing x -> x <> [] -> array_max x = x !!! (length x - 1)%nat.
Proof.
  destruct x as [|x0 xs]; [congruence|]. intros Hinc _.
  simpl length. rewrite Nat.sub_succ, Nat.sub_0_r.
  now apply foldl_Rmax_increasing.
Qed.

Lemma array_min_increasing (x : list R) :
  increasing x -> x <> [] -> array_min x = x !!! 0%nat.
Proof.
  destruct x as [|x0 xs]; [congruence|]. intros Hinc _.
  simpl. apply foldl_Rmin_lower. intros k Hk. left.
  apply (increasing_lt (x0 :: xs) 0 (S k) Hinc). simpl. lia.
Qed.

Lemma lookup_total_zip_with (f : R -> R -> R) (x y : list R) (k : nat) :
  (k < length x)%nat -> (k < length y)%nat ->
  zip_with f x y !!! k = f (x !!! k) (y !!! k).
Proof.
  revert y k. induction x as [|x0 x IH]; intros [|y0 y] k; simpl; try lia.
  destruct k as [|k]; [reflexivity|]. intros Hx Hy.
  change (zip_with f x y !!! k = f (x !!! k) (y !!! k)). apply IH; lia.
Qed.

Lemma lookup_total_map (f : R -> R) (u : list R) (k : nat) :
  (k < length u)%nat -> map f u !!! k = f (u !!! k).
Proof.
  revert k. induction u as [|u0 u IH]; intros k; simpl; [lia|].
  destruct k as [|k]; [reflexivity|]. intros Hk.
  change (map f u !!! k = f (u !!! k)). apply IH. lia.
Qed.

Lemma broadcast_to_same (v : list R) (n : nat) :
  length v = n -> broadcast_to v n = Some v.
Proof.
  intros Hlen. unfold broadcast_to.
  destruct (decide (length v = n)); [reflexivity|contradiction].
Qed.

Section Affine.
Variables x u : list R.
Hypothesis Hinc : increasing x.
Hypothesis Hrows :
  forall j, (0 < j)%nat -> (S j < length x)%nat ->
    slope x u (j - 1) = slope x u j.

(** Equal slopes around every interior vertex: one slope on all cells. *)
Lemma slope_constant (j : nat) :
  (S j < length x)%nat -> slope x u j = slope x u 0.
Proof.
  induction j as [|j IH]; [reflexivity|]. intros Hj.
  rewrite <- IH by lia. symmetry.
  replace j with (S j - 1)%nat at 1 by lia. apply Hrows; lia.
Qed.

Lemma cell_increment (j : nat) :
  (S j < length x)%nat ->
  u !!! S j - u !!! j = slope x u 0 * (x !!! S j - x !!! j).
Proof.
  intros Hj. rewrite <- (slope_constant j Hj). unfold slope.
  pose proof (Hinc j Hj). field. lra.
Qed.

Lemma affine (j : nat) :
  (j < length x)%nat ->
  u !!! j - u !!! 0%nat = slope x u 0 * (x !!! j - x !!! 0%nat).
Proof.
  induction j as [|j IH]; intros Hj; [lra|].
  pose proof (cell_increment j Hj). specialize (IH ltac:(lia)). lra.
Qed.
End Affine.

Lemma isclose_refl (y : R) : isclose y y = true.
Proof.
  unfold isclose.
  destruct (Rle_dec (Rabs (y - y)) (1e-8 + 1e-5 * Rabs y)) as [_|Hn];
    [reflexivity|].
  exfalso. apply Hn.
  replace (y - y) with 0 by ring. rewrite Rabs_R0.
  pose proof (Rabs_pos y). lra.
Qed.

Lemma boundary_vertices_ends (x : list R) :
  (2 <= length x)%nat -> boundary_vertices x = [0%nat; (length x - 1)%nat].
Proof.
  unfold boundary_vertices. destruct (length x) as [|[|n]]; try lia.
  intros _. simpl. rewrite ?Nat.sub_0_r. reflexivity.
Qed.

Lemma move_mesh_run `{Params} `{External} (domain : list R) (sol : loc)
    (h : heap) :
  let w_top := List.last (sub (h !!! sol) 0) 0 in
  let disp := Misc.displacement domain w_top in
  length disp = length domain ->
  Misc.move_mesh domain sol h
  = (Ok (zip_with Rplus domain (map (Rmult dt) disp)), h).
Proof.
  intros w_top disp Hlen. unfold Misc.move_mesh, bind, values, lift, iadd.
  cbn [fst snd]. fold w_top. fold disp.
  rewrite broadcast_to_same by (now rewrite length_map).
  reflexivity.
Qed.

(** What the contract says at a boundary vertex: the value [w_top] when the
    vertex is close to [H], the value 0 when it is close to 0, the equation
    of the vertex when it is close to neither. *)
Lemma laplace_boundary_vertex (x u : list R) (w_top : R) (j : nat) :
  In j (boundary_vertices x) ->
  solves_laplace x (Misc.displacement_bcs x w_top) u ->
  (isclose (x !!! j) (geometry_max x) = true -> u !!! j = w_top) /\
  (isclose (x !!! j) 0 = true -> u !!! j = 0) /\
  (isclose (x !!! j) (geometry_max x) = false ->
   isclose (x !!! j) 0 = false -> (j < length x)%nat -> laplace_row x u j).
Proof.
  intros Hj [Hlen Hbc Hrows]. split; [|split].
  - intros Hclose.
    apply (Hbc (dirichletbc w_top
                  (locate_dofs_topological CG1
                     (locate_entities_boundary x
                        (fun y => isclose y (geometry_max x))))
                  CG1)).
    + left. reflexivity.
    + simpl. unfold locate_dofs_topological, locate_entities_boundary.
      apply List.filter_In. now split.
  - intros Hclose.
    apply (Hbc (dirichletbc 0
                  (locate_dofs_topological CG1
                     (locate_entities_boundary x (fun y => isclose y 0)))
                  CG1)).
    + right. left. reflexivity.
    + simpl. unfold locate_dofs_topological, locate_entities_boundary.
      apply List.filter_In. now split.
  - intros Hfar Hfar0 Hlt. apply Hrows; [exact Hlt|].
    intros bc [<-|[<-|[]]] Hin; simpl in Hin;
      unfold locate_dofs_topological, locate_entities_boundary in Hin;
      apply List.filter_In in Hin as [_ Hin]; congruence.
Qed.




(** ** The concrete environment meets the contracts *)

Lemma convex_lower (v0 v1 lo p0 p1 t : R) :
  lo <= v0 -> lo <= v1 -> p0 < p1 -> p0 <= t <= p1 ->
  lo <= v0 + (t - p0) * ((v1 - v0) / (p1 - p0)).
Proof.
  intros Hv0 Hv1 Hp [Ht0 Ht1].
  set (l := (t - p0) / (p1 - p0)).
  assert (Hl : 0 <= l <= 1).
  { unfold l. split.
    - apply Rmult_le_pos; [lra|]. left. apply Rinv_0_lt_compat. lra.
    - apply (Rmult_le_reg_r (p1 - p0)); [lra|].
      unfold Rdiv. rewrite Rmult_assoc, Rinv_l by lra. lra. }
  replace ((t - p0) * ((v1 - v0) / (p1 - p0))) with (l * (v1 - v0))
    by (unfold l; field; lra).
  destruct Hl as [Hl0 Hl1].
  assert (0 <= l * (v1 - lo)) by (apply Rmult_le_pos; lra).
  assert (0 <= (1 - l) * (v0 - lo)) by (apply Rmult_le_pos; lra).
  lra.
Qed.

Lemma interp1d_lower (points values : list R) (t lo : R) :
  increasing points -> length values = length points -> points <> [] ->
  points !!! 0%nat <= t ->
  Forall (fun v => lo <= v) values ->
  lo <= interp1d points values t.
Proof.
  revert values.
  induction points as [|p0 ps IH]; intros values Hinc Hlen Hne Ht Hlo;
    [congruence|].
  destruct values as [|v0 vs]; [discriminate|].
  inversion Hlo as [|? ? Hv0 Hvs]; subst.
  destruct ps as [|p1 ps'].
  - destruct vs; exact Hv0.
  - destruct vs as [|v1 vs']; [discriminate|].
    inversion Hvs as [|? ? Hv1 _]; subst.
    assert (Hp : p0 < p1) by (apply (Hinc 0%nat); simpl; lia).
    change (interp1d (p0 :: p1 :: ps') (v0 :: v1 :: vs') t)
      with (if Rle_dec t p1
            then v0 + (t - p0) * ((v1 - v0) / (p1 - p0))
            else interp1d (p1 :: ps') (v1 :: vs') t).
    destruct (Rle_dec t p1) as [Hle|Hgt].
    + apply convex_lower; auto.
    + apply IH.
      * eapply increasing_tail; exact Hinc.
      * simpl in Hlen |- *. lia.
      * discriminate.
      * simpl. lra.
      * exact Hvs.
Qed.

Lemma example_griddata_one_value :
  one_value_per_point (@griddata example_external).
Proof. intros points values xi. simpl. apply length_map. Qed.

Lemma example_griddata_within_data :
  within_data (@griddata example_external).
Proof.
  intros points values xi lo Hne Hinc Hlen Hxi Hlo. simpl.
  rewrite (array_min_increasing points Hinc Hne) in Hxi.
  induction Hxi as [|t xi [Ht _] _ IH]; simpl; constructor; [|exact IH].
  now apply interp1d_lower.
Qed.

Lemma isclose_far (x y : R) :
  1e-8 + 1e-5 * Rabs y < Rabs (x - y) -> isclose x y = false.
Proof.
  intros Hfar. unfold isclose.
  destruct (Rle_dec (Rabs (x - y)) (1e-8 + 1e-5 * Rabs y)); [lra|reflexivity].
Qed.

Lemma isclose_zero (y : R) : isclose y 0 = true -> Rabs y <= 1e-8.
Proof.
  unfold isclose. rewrite Rminus_0_r, Rabs_R0.
  destruct (Rle_dec (Rabs y) (1e-8 + 1e-5 * 0)); [lra|discriminate].
Qed.

Lemma isclose_zero_far (y : R) : isclose y 0 = false -> 1e-8 < Rabs y.
Proof.
  unfold isclose. rewrite Rminus_0_r, Rabs_R0.
  destruct (Rle_dec (Rabs y) (1e-8 + 1e-5 * 0)); [discriminate|lra].
Qed.

(** On an increasing mesh whose base vertex, and no other boundary vertex,
    is close to 0, and whose base vertex is not close to the top, the
    affine displacement solves the discrete Laplace problem of
    [move_mesh]. *)
Lemma affine_displacement_solves `{Params} (x : list R) (w_top : R) :
  (2 <= length x)%nat -> increasing x ->
  isclose (x !!! 0%nat) 0 = true ->
  isclose (x !!! 0%nat) (geometry_max x) = false ->
  isclose (x !!! (length x - 1)%nat) 0 = false ->
  solves_laplace x (Misc.displacement_bcs x w_top)
    (affine_displacement (Misc.displacement_bcs x w_top) x).
Proof.
  intros HN Hinc Hb0 Ht0 HbN.
  assert (Hne : x <> []) by (destruct x; simpl in HN; [lia|congruence]).
  set (N1 := (length x - 1)%nat) in *.
  assert (Hheight : 0 < x !!! N1 - x !!! 0%nat).
  { assert (x !!! 0%nat < x !!! N1)
      by (apply increasing_lt; [exact Hinc|subst N1; lia]).
    lra. }
  assert (Hgm : geometry_max x = x !!! N1).
  { unfold geometry_max. rewrite (array_max_increasing x Hinc Hne).
    fold N1. apply Rmax_left.
    apply isclose_zero in Hb0. apply isclose_zero_far in HbN.
    revert Hb0 HbN. unfold Rabs.
    destruct (Rcase_abs (x !!! 0%nat)), (Rcase_abs (x !!! N1)); lra. }
  assert (Hval : forall j, (j < length x)%nat ->
            affine_displacement (Misc.displacement_bcs x w_top) x !!! j
            = w_top * ((x !!! j - x !!! 0%nat) / (x !!! N1 - x !!! 0%nat))).
  { intros j Hj. unfold affine_displacement. simpl.
    rewrite lookup_total_map by exact Hj.
    rewrite (array_max_increasing x Hinc Hne),
            (array_min_increasing x Hinc Hne).
    reflexivity. }
  assert (Hslope : forall j, (S j < length x)%nat ->
            slope x (affine_displacement (Misc.displacement_bcs x w_top) x) j
            = w_top / (x !!! N1 - x !!! 0%nat)).
  { intros j Hj. unfold slope. rewrite !Hval by lia.
    pose proof (Hinc j Hj). field. lra. }
  split.
  - unfold affine_displacement. apply length_map.
  - intros bc j [<-|[<-|[]]] Hj; simpl in Hj;
      unfold locate_dofs_topological, locate_entities_boundary in Hj;
      apply List.filter_In in Hj as [Hj Hclose];
      rewrite boundary_vertices_ends in Hj by exact HN;
      fold N1 in Hj; destruct Hj as [<-|[<-|[]]];
      cbn [bc_value]; try congruence.
    + rewrite Hval by (subst N1; lia). field. lra.
    + rewrite Hval by lia. field. lra.
  - intros j Hj Hfree.
    destruct (decide (j = 0%nat)) as [->|Hj0].
    + exfalso.
      apply (Hfree (dirichletbc 0
                      (locate_dofs_topological CG1
                         (locate_entities_boundary x (fun y => isclose y 0)))
                      CG1)).
      * right. left. reflexivity.
      * simpl. unfold locate_dofs_topological, locate_entities_boundary.
        apply List.filter_In. split; [|exact Hb0].
        rewrite boundary_vertices_ends by exact HN. left. reflexivity.
    + destruct (decide (j = N1)) as [->|HjN].
      * exfalso.
        apply (Hfree (dirichletbc w_top
                        (locate_dofs_topological CG1
                           (locate_entities_boundary x
                              (fun y => isclose y (geometry_max x))))
                        CG1)).
        -- left. reflexivity.
        -- simpl. unfold locate_dofs_topological, locate_entities_boundary.
           apply List.filter_In. split.
           ++ rewrite boundary_vertices_ends by exact HN.
              right. left. reflexivity.
           ++ rewrite Hgm. apply isclose_refl.
      * unfold laplace_row. destruct j as [|i]; [lia|].
        destruct (decide (S (S i) < length x)%nat); [|subst N1; lia].
        rewrite !Hslope by lia. reflexivity.
Qed.

Lemma example_mesh_increasing : increasing example_mesh.
Proof.
  intros k Hk. simpl in Hk. assert (k = 0%nat) as -> by lia. simpl. lra.
Qed.

Lemma example_mesh_max : array_max example_mesh = 1.
Proof. simpl. apply Rmax_right. lra. Qed.

Lemma example_mesh_geometry_max : geometry_max example_mesh = 1.
Proof. unfold geometry_max. rewrite example_mesh_max. apply Rmax_left. lra. Qed.

Lemma example_mesh_min : array_min example_mesh = 0.
Proof. simpl. apply Rmin_left. lra. Qed.

Lemma example_top_far_from_zero :
  isclose (example_mesh !!! (length example_mesh - 1)%nat) 0 = false.
Proof.
  apply isclose_far. simpl.
  replace (1 - 0) with 1 by ring. rewrite Rabs_R0, Rabs_R1. lra.
Qed.

Lemma example_w_top :
  List.last (sub (example_heap !!! 0%nat) 0) 0 = -1.
Proof. unfold example_heap. now rewrite lookup_total_singleton_eq. Qed.


Lemma example_heap_initial : 0%nat ∈ dom example_heap.
Proof. unfold example_heap. rewrite dom_singleton_L. now apply elem_of_singleton. Qed.

(** ** The properties on the concrete environment *)

Lemma penalty_coefficient_witness :
  0.5 - Solvers.max 0.01 0.5 = 0 /\
  0.001 - Solvers.max 0.01 0.001 = 0.001 - 0.01 /\
  0.001 - Solvers.max 0.01 0.001 < 0.
Proof.
  destruct (@penalty_coefficient example_params) as (Hge & Hlt & _).
  split.
  - apply Hge. simpl. lra.
  - apply Hlt. simpl. lra.
Defined.

Lemma K_positive_increasing_witness :
  0 < @Solvers.K example_params R _ 0.5 /\
  @Solvers.K example_params R _ 0.25 < @Solvers.K example_params R _ 0.5.
Proof.
  destruct (@K_positive_increasing example_params) as [Hpos Hmono];
    try (simpl; lra).
  split.
  - apply Hpos. simpl. lra.
  - destruct (Hmono 0.25 0.5) as (_ & _ & Hstrict); try (simpl; lra).
    apply Hstrict. left. simpl. lra.
Defined.


Lemma clamp_enforces_floor_witness :
  let bc_top := {| bc_type := "velocity"; bc_top_value := -1 |} in
  let sol := fresh (dom example_heap) in
  exists h',
    @Solvers.solve_pde example_params example_external example_mesh 0 bc_top
      example_heap = (Ok sol, h') /\
    sub (h' !!! sol) 1 !! 0%nat = Some (1.01 * 0.01) /\
    sub (h' !!! sol) 1 !! 1%nat = Some 0.5 /\
    Forall (fun v => 0.01 <= v) (sub (h' !!! sol) 1) /\
    exists z_i phi_i,
      @Misc.interp example_params example_external (sol, 1%nat) example_mesh
        h' = (Ok (z_i, phi_i), h') /\
      Forall (fun v => 0.01 <= v) phi_i.
Proof.
  intros bc_top sol.
  destruct (@initial_guess_fresh example_params example_mesh 0%nat
              example_heap) as (guess & Hinit & _).
  destruct (@clamp_enforces_floor example_params example_external
              example_mesh 0%nat bc_top example_heap
              ltac:(simpl; lra) sol guess example_solution Hinit eq_refl)
    as (h' & Hrun & _ & Hnodes & Hfloor & Hrows).
  exists h'. split; [exact Hrun|].
  split.
  { rewrite (Hnodes 0%nat 0.005 eq_refl). simpl.
    destruct (Rlt_dec 0.005 0.01); [reflexivity|lra]. }
  split.
  { rewrite (Hnodes 1%nat 0.5 eq_refl). simpl.
    destruct (Rlt_dec 0.5 0.01); [lra|reflexivity]. }
  split; [exact Hfloor|].
  apply Hrows.
  - exact example_griddata_within_data.
  - discriminate.
  - exact example_mesh_increasing.
  - reflexivity.
Defined.


Lemma unknown_bc_type_is_silent_witness :
  let bc_top := {| bc_type := "free"; bc_top_value := 0 |} in
  exists sol h',
    length (bcs_of (@Solvers.nonlinear_problem example_params example_mesh
                      sol 0 bc_top)) = 1%nat /\
    Forall (fun I => over I = dx)
      (residual (@Solvers.nonlinear_problem example_params example_mesh
                   sol 0 bc_top)) /\
    free_boundary example_mesh
      (bcs_of (@Solvers.nonlinear_problem example_params example_mesh
                 sol 0 bc_top)) = [1%nat] /\
    @Solvers.solve_pde example_params example_external example_mesh 0 bc_top
      example_heap = (Ok sol, h').
Proof.
  intros bc_top.
  destruct (@initial_guess_fresh example_params example_mesh 0%nat
              example_heap) as (guess & Hinit & _).
  destruct (@unknown_bc_type_is_silent example_params example_external
              example_mesh 0%nat bc_top example_heap
              ltac:(discriminate) ltac:(discriminate)
              _ guess example_solution Hinit eq_refl)
    as (Hbcs & Hres & Hfree & h' & Hrun).
  exists (fresh (dom example_heap)), h'.
  split; [now rewrite Hbcs|]. split; [exact Hres|].
  split; [|exact Hrun].
  apply Hfree.
  - simpl. lia.
  - apply isclose_refl.
  - exact example_top_far_from_zero.
Defined.

Lemma solve_rows_do_not_fit_witness :
  let bc_top := {| bc_type := "velocity"; bc_top_value := -1 |} in
  exists h',
    @Solvers.solve example_params example_external example_mesh 0 bc_top
      example_heap = (Raise ValueError, h').
Proof.
  intros bc_top.
  destruct (@solve_rows_do_not_fit example_params example_external
              example_mesh 0%nat bc_top example_heap
              example_griddata_one_value) as [_ Hraise].
  destruct (Hraise ltac:(simpl; lia) ltac:(simpl; lia))
    as (e & h' & Hrun & Hexn).
  destruct (@initial_guess_fresh example_params example_mesh 0%nat
              example_heap) as (guess & Hinit & _).
  rewrite (Hexn _ guess example_solution Hinit eq_refl) in Hrun.
  exists h'. exact Hrun.
Defined.

Lemma solve_raises_before_update_witness :
  let bc_top := {| bc_type := "velocity"; bc_top_value := -1 |} in
  exists e h',
    @Solvers.solve example_params example_external example_mesh 0 bc_top
      example_heap = (Raise e, h') /\
    h' !! 0%nat = example_heap !! 0%nat.
Proof.
  intros bc_top.
  destruct (@solve_raises_before_update example_params example_external
              example_mesh 0%nat bc_top example_heap
              example_griddata_one_value
              ltac:(simpl; lia) ltac:(simpl; lia) example_heap_initial)
    as (_ & _ & e & h' & Hrun & Hframe).
  exists e, h'. split; [exact Hrun|exact Hframe].
Defined.

(** * Further properties of the code *)

(** ** The constitutive helpers *)

(** X1. On real numbers the smooth [max] of either module is the hard
    maximum: it returns the larger of its two arguments, it is associative
    and it commutes with a shift of both arguments. *)
Theorem max_is_hard_maximum (f1 f2 f3 c : R) :
  Solvers.max f1 f2 = (if Rle_dec f1 f2 then f2 else f1) /\
  Misc.max f1 f2 = (if Rle_dec f1 f2 then f2 else f1) /\
  Solvers.max (Solvers.max f1 f2) f3 = Solvers.max f1 (Solvers.max f2 f3) /\
  Solvers.max (f1 + c) (f2 + c) = Solvers.max f1 f2 + c.
Proof.
  rewrite ?Solvers_max_Rmax, ?Misc_max_Rmax.
  repeat split; try reflexivity.
  - symmetry. apply Rmax_assoc.
  - unfold Rmax.
    destruct (Rle_dec (f1 + c) (f2 + c)), (Rle_dec f1 f2); lra.
Qed.




(** X3. Whatever the exponents, [K] is positive on the open interval
    [(0, 1)], so that the drag coefficient [eps**2 / K(phi)] of the
    momentum balance is defined there, positive for [eps <> 0]. *)
Theorem drag_coefficient_positive `{Params} (phi : R) :
  0 < phi < 1 ->
  0 < Solvers.K phi /\
  (eps <> 0 -> 0 < rpow eps 2 / Solvers.K phi).
Proof.
  intros Hphi.
  assert (HK : 0 < Solvers.K phi).
  { rewrite K_Rpower by exact Hphi.
    apply Rdiv_lt_0_compat; apply Rpower_pos. }
  split; [exact HK|]. intros Heps. rewrite rpow_2.
  apply Rdiv_lt_0_compat; [|exact HK].
  destruct (Rtotal_order eps 0) as [Hn|[Hz|Hp]]; [|contradiction|].
  - replace (eps * eps) with ((- eps) * (- eps)) by ring.
    apply Rmult_lt_0_compat; lra.
  - apply Rmult_lt_0_compat; lra.
Qed.

Lemma drag_coefficient_positive_witness :
  0 < @Solvers.K example_params R _ 0.5 /\
  0 < rpow 1 2 / @Solvers.K example_params R _ 0.5.
Proof.
  destruct (@drag_coefficient_positive example_params 0.5 ltac:(lra))
    as [HK Hdrag].
  split; [exact HK|]. apply Hdrag. simpl. lra.
Defined.

(** X4. For positive porosities the coefficient [C] is positive, equals 1
    at the reference porosity, [C(phi0, phi0) = 1], and decreases strictly
    as [phi] grows. *)
Theorem C_normalised_decreasing (p q p0 : R) :
  0 < p0 ->
  Misc.C p0 p0 = 1 /\
  (0 < p -> 0 < Misc.C p p0) /\
  (0 < p -> p < q -> Misc.C q p0 < Misc.C p p0).
Proof.
  intros Hp0. unfold Misc.C; simpl.
  assert (Hi0 : 0 < 1 / p0) by (apply Rdiv_lt_0_compat; lra).
  split; [|split].
  - field. split; lra.
  - intros Hp. assert (0 < 1 / p) by (apply Rdiv_lt_0_compat; lra).
    apply Rdiv_lt_0_compat; lra.
  - intros Hp Hpq.
    assert (Hinv : 1 / q < 1 / p).
    { unfold Rdiv. rewrite !Rmult_1_l.
      apply Rinv_lt_contravar; [apply Rmult_lt_0_compat|]; lra. }
    unfold Rdiv at 1 3. apply Rmult_lt_compat_r.
    + apply Rinv_0_lt_compat. lra.
    + lra.
Qed.

Lemma C_normalised_decreasing_witness :
  Misc.C 0.5 0.5 = 1 /\ 0 < Misc.C 0.25 0.5 /\
  Misc.C 0.5 0.5 < Misc.C 0.25 0.5.
Proof.
  destruct (C_normalised_decreasing 0.25 0.5 0.5 ltac:(lra))
    as (H1 & Hpos & Hdec).
  split; [exact H1|]. split; [apply Hpos; lra|apply Hdec; lra].
Defined.

(** ** The Output Sampler *)

Lemma linspace_lookup (start stop : R) (num i : nat) :
  (i < num)%nat ->
  linspace start stop num !! i
  = Some (INR i * ((stop - start) / INR (num - 1)) + start).
Proof.
  intros Hi. unfold linspace.
  change (map ?g (seq 0 num)) with (g <$> seq 0 num).
  rewrite list_lookup_fmap, lookup_seq_lt by exact Hi. reflexivity.
Qed.

(** X5. [interp] only reads: it returns, with the heap as it was, a grid of
    [nz+1] equally spaced points that starts at [z.min()], ends at
    [z.max()] (for [nz >= 1]) and stays between the two, together with one
    interpolated value for each point of the grid. *)
Theorem interp_grid `{Params} `{External}
    (f : loc * nat) (domain : list R) (h : heap) :
  one_value_per_point griddata ->
  exists Z F,
    Misc.interp f domain h = (Ok (Z, F), h) /\
    length Z = (nz + 1)%nat /\ length F = (nz + 1)%nat /\
    Z !! 0%nat = Some (array_min domain) /\
    ((0 < nz)%nat -> Z !! nz = Some (array_max domain)) /\
    (forall i, (i < nz)%nat ->
       Z !!! S i - Z !!! i = (array_max domain - array_min domain) / INR nz) /\
    Forall (fun t => array_min domain <= t <= array_max domain) Z.
Proof.
  intros Hg. rewrite interp_run. eexists _, _. split; [reflexivity|].
  set (lo := array_min domain). set (hi := array_max domain).
  assert (Hlook : forall i, (i < nz + 1)%nat ->
            linspace lo hi (nz + 1) !! i
            = Some (INR i * ((hi - lo) / INR nz) + lo)).
  { intros i Hi. rewrite linspace_lookup by exact Hi.
    replace (nz + 1 - 1)%nat with nz by lia. reflexivity. }
  split; [apply length_linspace|].
  split; [rewrite Hg; apply length_linspace|].
  split; [|split; [|split]].
  - rewrite Hlook by lia. simpl. f_equal. lra.
  - intros Hnz. rewrite Hlook by lia. f_equal.
    assert (0 < INR nz) by (apply lt_0_INR; exact Hnz). field. lra.
  - intros i Hi.
    pose proof (Hlook (S i) ltac:(lia)) as HS.
    pose proof (Hlook i ltac:(lia)) as Hi'.
    apply list_lookup_total_correct in HS, Hi'. rewrite HS, Hi'.
    rewrite S_INR. field.
    assert (0 < INR nz) by (apply lt_0_INR; lia). lra.
  - apply linspace_between, array_min_le_max.
Qed.

Lemma interp_grid_witness :
  exists Z F,
    @Misc.interp example_params example_external (0%nat, 1%nat) example_mesh
      example_heap = (Ok (Z, F), example_heap) /\
    length Z = 2%nat /\ length F = 2%nat.
Proof.
  destruct (@interp_grid example_params example_external (0%nat, 1%nat)
              example_mesh example_heap example_griddata_one_value)
    as (Z & F & Hrun & HZ & HF & _).
  exists Z, F. split; [exact Hrun|]. split; [exact HZ|exact HF].
Defined.

(** ** More on the mesh motion *)

Lemma laplace_interior_rows (x u : list R) (w_top : R) :
  (2 <= length x)%nat ->
  solves_laplace x (Misc.displacement_bcs x w_top) u ->
  forall j, (0 < j)%nat -> (S j < length x)%nat ->
    slope x u (j - 1) = slope x u j.
Proof.
  intros HN Hsol j Hj0 Hj.
  pose proof (boundary_vertices_ends x HN) as Hends.
  assert (Hrow : laplace_row x u j).
  { apply (laplace_rows _ _ _ Hsol); [lia|].
    intros bc [<-|[<-|[]]] Hin; simpl in Hin;
      unfold locate_dofs_topological, locate_entities_boundary in Hin;
      apply List.filter_In in Hin as [Hin _]; rewrite Hends in Hin;
      destruct Hin as [<-|[<-|[]]]; lia. }
  unfold laplace_row in Hrow. destruct j as [|i]; [lia|].
  destruct (decide (S (S i) < length x)%nat); [|lia].
  replace (S i - 1)%nat with i by lia. exact Hrow.
Qed.

Lemma move_mesh_vertices `{Params} `{External} (domain : list R) (sol : loc)
    (h : heap) :
  let w_top := List.last (sub (h !!! sol) 0) 0 in
  let disp := Misc.displacement domain w_top in
  length disp = length domain ->
  exists domain',
    Misc.move_mesh domain sol h = (Ok domain', h) /\
    length domain' = length domain /\
    forall k, (k < length domain)%nat ->
      domain' !!! k = domain !!! k + dt * disp !!! k.
Proof.
  intros w_top disp Hlen.
  exists (zip_with Rplus domain (map (Rmult dt) disp)).
  split; [now apply move_mesh_run|]. split.
  - apply length_zip_with_l_eq. now rewrite length_map.
  - intros k Hk. rewrite lookup_total_zip_with, lookup_total_map;
      rewrite ?length_map; try lia. reflexivity.
Qed.

(** On an increasing mesh whose base vertex is close to 0 and whose top
    vertex is not, [H] is the coordinate of the top vertex. *)
Lemma geometry_max_top (x : list R) :
  increasing x -> (2 <= length x)%nat ->
  isclose (x !!! 0%nat) 0 = true ->
  isclose (x !!! (length x - 1)%nat) 0 = false ->
  geometry_max x = x !!! (length x - 1)%nat.
Proof.
  intros Hinc HN Hb0 HbN.
  assert (Hne : x <> []) by (destruct x; simpl in HN; [lia|congruence]).
  assert (Hlt : x !!! 0%nat < x !!! (length x - 1)%nat)
    by (apply increasing_lt; [exact Hinc|lia]).
  unfold geometry_max. rewrite (array_max_increasing x Hinc Hne).
  apply Rmax_left.
  apply isclose_zero in Hb0. apply isclose_zero_far in HbN.
  revert Hb0 HbN. unfold Rabs.
  destruct (Rcase_abs (x !!! 0%nat)),
           (Rcase_abs (x !!! (length x - 1)%nat)); lra.
Qed.

(** The displacement between a base held at 0 and a top held at [w_top]:
    its value at the two ends and its slope. *)
Lemma displacement_between_base_and_top (x u : list R) (w_top : R) :
  increasing x -> (2 <= length x)%nat ->
  isclose (x !!! 0%nat) 0 = true ->
  isclose (x !!! (length x - 1)%nat) 0 = false ->
  solves_laplace x (Misc.displacement_bcs x w_top) u ->
  u !!! 0%nat = 0 /\ u !!! (length x - 1)%nat = w_top /\
  slope x u 0 * (array_max x - array_min x) = w_top /\
  forall k, (S k < length x)%nat ->
    u !!! S k - u !!! k = slope x u 0 * (x !!! S k - x !!! k).
Proof.
  intros Hinc HN Hb0 HbN Hsol.
  assert (Hne : x <> []) by (destruct x; simpl in HN; [lia|congruence]).
  pose proof (boundary_vertices_ends x HN) as Hends.
  pose proof (laplace_interior_rows x u w_top HN Hsol) as Hint.
  pose proof (affine x u Hinc Hint (length x - 1) ltac:(lia)) as Haff.
  destruct (laplace_boundary_vertex x u w_top 0%nat) as (_ & Hb & _);
    [rewrite Hends; left; reflexivity|exact Hsol|].
  destruct (laplace_boundary_vertex x u w_top (length x - 1)%nat)
    as (Ht & _ & _);
    [rewrite Hends; right; left; reflexivity|exact Hsol|].
  rewrite (geometry_max_top x Hinc HN Hb0 HbN) in Ht.
  specialize (Hb Hb0). specialize (Ht (isclose_refl _)).
  rewrite (array_max_increasing x Hinc Hne),
          (array_min_increasing x Hinc Hne).
  split; [exact Hb|]. split; [exact Ht|]. split.
  - rewrite <- Haff, Hb, Ht. ring.
  - apply (cell_increment x u Hinc Hint).
Qed.

(** X6. With the base vertex at [z = 0] and the top vertex away from it,
    and a displacement that solves the discrete Laplace problem,
    [move_mesh] keeps the base vertex where it is, moves the top vertex by
    [dt*w_top] and scales every cell by the same factor
    [1 + dt*w_top/H], for the height [H = max(z) - min(z)]; the heap is
    left as it was. *)
Theorem move_mesh_scales_cells `{Params} `{External}
    (domain : list R) (sol : loc) (h : heap) :
  let w_top := List.last (sub (h !!! sol) 0) 0 in
  let disp := Misc.displacement domain w_top in
  let N1 := (length domain - 1)%nat in
  let height := array_max domain - array_min domain in
  increasing domain -> (2 <= length domain)%nat ->
  isclose (domain !!! 0%nat) 0 = true ->
  isclose (domain !!! N1) 0 = false ->
  solves_laplace domain (Misc.displacement_bcs domain w_top) disp ->
  exists domain',
    Misc.move_mesh domain sol h = (Ok domain', h) /\
    length domain' = length domain /\
    domain' !!! 0%nat = domain !!! 0%nat /\
    domain' !!! N1 = domain !!! N1 + dt * w_top /\
    forall k, (S k < length domain)%nat ->
      domain' !!! S k - domain' !!! k
      = (domain !!! S k - domain !!! k) * (1 + dt * w_top / height).
Proof.
  intros w_top disp N1 height Hinc HN Hb0 HbN Hsol.
  destruct (move_mesh_vertices domain sol h (laplace_length _ _ _ Hsol))
    as (domain' & Hrun & Hlen & Hlook).
  destruct (displacement_between_base_and_top domain disp w_top
              Hinc HN Hb0 HbN Hsol) as (Hu0 & HuN & Hs & Hcell).
  fold w_top disp in Hlook.
  assert (Hne : domain <> [])
    by (destruct domain; simpl in HN; [lia|congruence]).
  assert (Hheight : 0 < height).
  { unfold height. rewrite (array_max_increasing domain Hinc Hne),
                           (array_min_increasing domain Hinc Hne).
    assert (domain !!! 0%nat < domain !!! (length domain - 1)%nat)
      by (apply increasing_lt; [exact Hinc|lia]).
    lra. }
  exists domain'. split; [exact Hrun|]. split; [exact Hlen|].
  split; [|split].
  - rewrite Hlook by lia. rewrite Hu0. ring.
  - rewrite Hlook by (unfold N1; lia). unfold N1. rewrite HuN. ring.
  - intros k Hk. rewrite !Hlook by lia. specialize (Hcell k Hk).
    fold height in Hs.
    assert (Hslope : slope domain disp 0 = w_top / height)
      by (rewrite <- Hs; field; lra).
    rewrite Hslope in Hcell.
    replace (disp !!! S k) with (disp !!! k + (disp !!! S k - disp !!! k))
      by ring.
    rewrite Hcell. field. lra.
Qed.

(** X7. The threshold is sharp and nothing checks it: with the base vertex
    at [z = 0], as soon as [H + dt*w_top <= 0] [move_mesh] still returns a
    mesh, whose first two vertices are no longer in increasing order. *)
Theorem mesh_tangles_beyond_threshold `{Params} `{External}
    (domain : list R) (sol : loc) (h : heap) :
  let w_top := List.last (sub (h !!! sol) 0) 0 in
  let disp := Misc.displacement domain w_top in
  increasing domain -> (2 <= length domain)%nat ->
  isclose (domain !!! 0%nat) 0 = true ->
  isclose (domain !!! (length domain - 1)%nat) 0 = false ->
  solves_laplace domain (Misc.displacement_bcs domain w_top) disp ->
  (array_max domain - array_min domain) + dt * w_top <= 0 ->
  exists domain',
    Misc.move_mesh domain sol h = (Ok domain', h) /\
    domain' !!! 1%nat <= domain' !!! 0%nat /\
    ~ increasing domain'.
Proof.
  intros w_top disp Hinc HN Hb0 HbN Hsol Hover.
  destruct (move_mesh_vertices domain sol h (laplace_length _ _ _ Hsol))
    as (domain' & Hrun & Hlen & Hlook).
  destruct (displacement_between_base_and_top domain disp w_top
              Hinc HN Hb0 HbN Hsol) as (Hu0 & HuN & Hs & Hcell).
  fold w_top disp in Hlook.
  assert (Hne : domain <> [])
    by (destruct domain; simpl in HN; [lia|congruence]).
  set (height := array_max domain - array_min domain) in *.
  assert (Hheight : 0 < height).
  { unfold height. rewrite (array_max_increasing domain Hinc Hne),
                           (array_min_increasing domain Hinc Hne).
    assert (domain !!! 0%nat < domain !!! (length domain - 1)%nat)
      by (apply increasing_lt; [exact Hinc|lia]).
    lra. }
  assert (Hle : domain' !!! 1%nat <= domain' !!! 0%nat).
  { rewrite !Hlook by lia. specialize (Hcell 0%nat ltac:(lia)).
    pose proof (Hinc 0%nat ltac:(lia)) as Hcell0.
    set (s := slope domain disp 0) in *.
    set (c := domain !!! 1%nat - domain !!! 0%nat) in *.
    assert (Hfac : height * (1 + dt * s) <= 0).
    { replace (height * (1 + dt * s)) with (height + dt * (s * height))
        by ring.
      rewrite Hs. exact Hover. }
    assert (Hfac' : 1 + dt * s <= 0).
    { destruct (Rle_dec (1 + dt * s) 0) as [Hok|Hno]; [exact Hok|].
      exfalso. assert (0 < height * (1 + dt * s))
        by (apply Rmult_lt_0_compat; lra). lra. }
    assert (Hprod : c * (1 + dt * s) <= c * 0)
      by (apply Rmult_le_compat_l; unfold c; lra).
    replace (disp !!! 1%nat) with (disp !!! 0%nat + s * c) by lra.
    unfold c in *. lra. }
  exists domain'. split; [exact Hrun|]. split; [exact Hle|].
  intros Hinc'. specialize (Hinc' 0%nat ltac:(lia)). lra.
Qed.

(** X8. A mesh that does not reach [z = 0] has no base condition: when its
    base vertex is close neither to 0 nor to [H], and its top vertex is not
    below 0, a displacement that solves the discrete Laplace problem is
    [w_top] everywhere, and [move_mesh] translates every vertex by
    [dt*w_top]. *)
Theorem mesh_off_origin_is_translated `{Params} `{External}
    (domain : list R) (sol : loc) (h : heap) :
  let w_top := List.last (sub (h !!! sol) 0) 0 in
  let disp := Misc.displacement domain w_top in
  increasing domain -> (2 <= length domain)%nat ->
  isclose (domain !!! 0%nat) 0 = false ->
  isclose (domain !!! 0%nat) (geometry_max domain) = false ->
  0 <= domain !!! (length domain - 1)%nat ->
  solves_laplace domain (Misc.displacement_bcs domain w_top) disp ->
  exists domain',
    Misc.move_mesh domain sol h = (Ok domain', h) /\
    length domain' = length domain /\
    forall k, (k < length domain)%nat ->
      domain' !!! k = domain !!! k + dt * w_top.
Proof.
  intros w_top disp Hinc HN Hb0 Ht0 HxN Hsol.
  destruct (move_mesh_vertices domain sol h (laplace_length _ _ _ Hsol))
    as (domain' & Hrun & Hlen & Hlook).
  fold w_top disp in Hlook.
  assert (Hne : domain <> [])
    by (destruct domain; simpl in HN; [lia|congruence]).
  pose proof (boundary_vertices_ends domain HN) as Hends.
  pose proof (laplace_interior_rows domain disp w_top HN Hsol) as Hint.
  pose proof (affine domain disp Hinc Hint) as Haff.
  destruct (laplace_boundary_vertex domain disp w_top 0%nat)
    as (_ & _ & Hfree);
    [rewrite Hends; left; reflexivity|exact Hsol|].
  destruct (laplace_boundary_vertex domain disp w_top
              (length domain - 1)%nat) as (Ht & _ & _);
    [rewrite Hends; right; left; reflexivity|exact Hsol|].
  assert (Hgm : geometry_max domain = domain !!! (length domain - 1)%nat).
  { unfold geometry_max. rewrite (array_max_increasing domain Hinc Hne).
    now apply Rmax_left. }
  rewrite Hgm in Ht. specialize (Ht (isclose_refl _)).
  specialize (Hfree Ht0 Hb0 ltac:(lia)). unfold laplace_row in Hfree.
  destruct (decide (1 < length domain)%nat); [|lia].
  rewrite <- Hfree in Haff.
  assert (Hconst : forall k, (k < length domain)%nat -> disp !!! k = w_top).
  { intros k Hk. pose proof (Haff k Hk) as Hk'.
    pose proof (Haff (length domain - 1)%nat ltac:(lia)) as HN'.
    rewrite Ht in HN'. lra. }
  exists domain'. split; [exact Hrun|]. split; [exact Hlen|].
  intros k Hk. rewrite Hlook, Hconst by exact Hk. reflexivity.
Qed.

Lemma example_displacement_solves_any (w : R) :
  solves_laplace example_mesh
    (@Misc.displacement_bcs example_mesh w)
    (@Misc.displacement example_external example_mesh w).
Proof.
  apply (@affine_displacement_solves example_params example_mesh w).
  - simpl. lia.
  - exact example_mesh_increasing.
  - apply isclose_refl.
  - rewrite example_mesh_geometry_max. apply isclose_far. simpl.
    replace (0 - 1) with (- (1)) by ring.
    rewrite Rabs_Ropp, Rabs_R1. lra.
  - exact example_top_far_from_zero.
Qed.

Lemma example_w_top_fast :
  List.last (sub (example_heap_fast !!! 0%nat) 0) 0 = -2.
Proof. unfold example_heap_fast. now rewrite lookup_total_singleton_eq. Qed.

Lemma example_mesh_off_origin_increasing : increasing example_mesh_off_origin.
Proof.
  intros k Hk. simpl in Hk. assert (k = 0%nat) as -> by lia. simpl. lra.
Qed.

Lemma example_mesh_off_origin_max : geometry_max example_mesh_off_origin = 2.
Proof.
  unfold geometry_max. simpl. rewrite (Rmax_right 1 2) by lra.
  apply Rmax_left. lra.
Qed.

Lemma isclose_1_0 : isclose 1 0 = false.
Proof.
  apply isclose_far. replace (1 - 0) with 1 by ring.
  rewrite Rabs_R0, Rabs_R1. lra.
Qed.

Lemma isclose_2_0 : isclose 2 0 = false.
Proof.
  apply isclose_far. replace (2 - 0) with 2 by ring.
  rewrite Rabs_R0, (Rabs_pos_eq 2) by lra. lra.
Qed.

Lemma isclose_1_2 : isclose 1 2 = false.
Proof.
  apply isclose_far. replace (1 - 2) with (- (1)) by ring.
  rewrite Rabs_Ropp, Rabs_R1, (Rabs_pos_eq 2) by lra. lra.
Qed.

Lemma example_shift_solves (w : R) :
  solves_laplace example_mesh_off_origin
    (@Misc.displacement_bcs example_mesh_off_origin w)
    (@Misc.displacement example_external_shift example_mesh_off_origin w).
Proof.
  split.
  - reflexivity.
  - intros bc j [<-|[<-|[]]] Hj; simpl in Hj;
      unfold locate_dofs_topological, locate_entities_boundary in Hj;
      apply List.filter_In in Hj as [Hj Hclose];
      destruct Hj as [<-|[<-|[]]]; simpl in Hclose |- *;
      try reflexivity.
    + rewrite isclose_1_0 in Hclose. discriminate.
    + rewrite isclose_2_0 in Hclose. discriminate.
  - intros j Hj _. simpl in Hj. unfold laplace_row.
    destruct j as [|[|j]]; [| |lia].
    + destruct (decide (1 < length example_mesh_off_origin)%nat);
        [|simpl in *; lia].
      unfold slope. simpl. field; lra.
    + destruct (decide (2 < length example_mesh_off_origin)%nat);
        [simpl in *; lia|].
      unfold slope. simpl. field; lra.
Qed.

Lemma move_mesh_scales_cells_witness :
  exists domain',
    @Misc.move_mesh example_params example_external example_mesh 0
      example_heap = (Ok domain', example_heap) /\
    domain' !!! 0%nat = 0 /\
    domain' !!! 1%nat = 1 + 0.5 * -1.
Proof.
  destruct (@move_mesh_scales_cells example_params example_external
              example_mesh 0%nat example_heap)
    as (domain' & Hrun & _ & Hbase & Htop & _).
  - exact example_mesh_increasing.
  - simpl. lia.
  - apply isclose_refl.
  - exact example_top_far_from_zero.
  - apply example_displacement_solves_any.
  - exists domain'. split; [exact Hrun|]. split; [exact Hbase|].
    rewrite example_w_top in Htop. exact Htop.
Defined.

Lemma mesh_tangles_beyond_threshold_witness :
  exists domain',
    @Misc.move_mesh example_params example_external example_mesh 0
      example_heap_fast = (Ok domain', example_heap_fast) /\
    ~ increasing domain'.
Proof.
  destruct (@mesh_tangles_beyond_threshold example_params example_external
              example_mesh 0%nat example_heap_fast)
    as (domain' & Hrun & _ & Htangled).
  - exact example_mesh_increasing.
  - simpl. lia.
  - apply isclose_refl.
  - exact example_top_far_from_zero.
  - apply example_displacement_solves_any.
  - rewrite example_w_top_fast, example_mesh_max, example_mesh_min.
    simpl. lra.
  - exists domain'. split; [exact Hrun|exact Htangled].
Defined.

Lemma mesh_off_origin_is_translated_witness :
  exists domain',
    @Misc.move_mesh example_params example_external_shift
      example_mesh_off_origin 0 example_heap
      = (Ok domain', example_heap) /\
    domain' !!! 0%nat = 1 + 0.5 * -1 /\
    domain' !!! 1%nat = 2 + 0.5 * -1.
Proof.
  destruct (@mesh_off_origin_is_translated example_params
              example_external_shift example_mesh_off_origin 0%nat
              example_heap)
    as (domain' & Hrun & _ & Hmoved).
  - exact example_mesh_off_origin_increasing.
  - simpl. lia.
  - exact isclose_1_0.
  - rewrite example_mesh_off_origin_max. exact isclose_1_2.
  - simpl. lra.
  - apply example_shift_solves.
  - exists domain'. split; [exact Hrun|].
    rewrite example_w_top in Hmoved.
    split; [apply (Hmoved 0%nat)|apply (Hmoved 1%nat)]; simpl; lia.
Defined.

(** ** More on the nonlinear step solver *)

(** X9. Whether it returns or raises, [solve_pde] leaves every [Function]
    that existed before the call as it was, the previous solution [sol_n]
    among them; the solution it returns is a new object. *)
Theorem solve_pde_touches_only_its_solution `{Params} `{External}
    (domain : list R) (sol_n : loc) (bc_top : bc_spec) (h h' : heap)
    (r : res loc) :
  Solvers.solve_pde domain sol_n bc_top h = (r, h') ->
  (forall l, l ∈ dom h -> h' !! l = h !! l) /\
  (forall sol, r = Ok sol -> (sol ∉ dom h) /\ (sol ∈ dom h')).
Proof.
  intros Hrun. split; [exact (solve_pde_frame _ _ _ _ _ _ Hrun)|].
  intros sol ->.
  destruct (initial_guess_fresh domain sol_n h) as (guess & Hinit & _).
  rewrite (solve_pde_run _ _ _ _ _ _ Hinit) in Hrun.
  destruct (NewtonSolver_solve _ domain guess) as [f|e];
    inversion Hrun; subst.
  split; [apply is_fresh|].
  rewrite dom_insert_L. set_solver.
Qed.

Lemma solve_pde_touches_only_its_solution_witness :
  let bc_top := {| bc_type := "velocity"; bc_top_value := -1 |} in
  let outcome := @Solvers.solve_pde example_params example_external
                   example_mesh 0 bc_top example_heap in
  outcome.2 !! 0%nat = example_heap !! 0%nat.
Proof.
  intros bc_top outcome.
  destruct (@solve_pde_touches_only_its_solution example_params
              example_external example_mesh 0%nat bc_top example_heap
              outcome.2 outcome.1) as [Hframe _].
  - unfold outcome. now destruct (Solvers.solve_pde _ _ _ _).
  - apply Hframe. exact example_heap_initial.
Defined.

(** X10. The Newton iteration starts from the previous step: the new
    [Function] is a different object from [sol_n], its two components are
    copies of those of [sol_n], and it is with this heap that [solve_pde]
    calls the Newton solver. *)
Theorem newton_starts_from_previous_step `{Params} `{External}
    (domain : list R) (sol_n : loc) (bc_top : bc_spec) (h : heap) :
  sol_n ∈ dom h ->
  exists sol guess,
    Solvers.initial_guess domain sol_n h = (Ok sol, guess) /\
    sol <> sol_n /\
    sub (guess !!! sol) 0 = sub (h !!! sol_n) 0 /\
    sub (guess !!! sol) 1 = sub (h !!! sol_n) 1 /\
    guess !!! sol_n = h !!! sol_n /\
    Solvers.solve_pde domain sol_n bc_top h
    = match NewtonSolver_solve
              (Solvers.nonlinear_problem domain sol sol_n bc_top) domain guess
      with
      | Ok f =>
          (Ok sol,
           <[sol := {| dofs0 := dofs0 f; dofs1 := Solvers.clamp (dofs1 f) |}]>
             guess)
      | Raise e => (Raise e, guess)
      end.
Proof.
  intros Hin.
  assert (Hne : fresh (dom h) <> sol_n)
    by (intros Heq; apply (is_fresh (dom h)); now rewrite Heq).
  eexists (fresh (dom h)), _. split; [reflexivity|].
  split; [exact Hne|]. cbn [fst snd].
  split; [|split; [|split]].
  - rewrite lookup_total_insert_eq. simpl.
    rewrite lookup_total_insert_eq. simpl.
    now rewrite lookup_total_insert_ne by exact Hne.
  - rewrite lookup_total_insert_eq. simpl.
    rewrite !(lookup_total_insert_ne _ (fresh (dom h)) sol_n) by exact Hne.
    reflexivity.
  - now rewrite !(lookup_total_insert_ne _ (fresh (dom h)) sol_n)
      by exact Hne.
  - apply solve_pde_run. reflexivity.
Qed.

Lemma newton_starts_from_previous_step_witness :
  exists sol guess,
    Solvers.initial_guess example_mesh 0 example_heap = (Ok sol, guess) /\
    sub (guess !!! sol) 0 = [0; -1] /\
    sub (guess !!! sol) 1 = [0.5; 0.5].
Proof.
  destruct (@newton_starts_from_previous_step example_params
              example_external example_mesh 0%nat
              {| bc_type := "velocity"; bc_top_value := -1 |}
              example_heap example_heap_initial)
    as (sol & guess & Hinit & _ & Hw & Hphi & _).
  exists sol, guess. split; [exact Hinit|].
  rewrite Hw, Hphi. unfold example_heap.
  rewrite lookup_total_singleton_eq. split; reflexivity.
Defined.

(** X11. A Newton solve that does not converge aborts the step and the
    run: [solve_pde] raises the solver's exception without clamping, and
    [solve], for [nt >= 1], raises it from its first step, with no retry;
    the heap holds the initial guess and nothing else has changed. *)
Theorem newton_failure_aborts_run `{Params} `{External}
    (domain : list R) (initial : loc) (bc_top : bc_spec) (h : heap)
    (sol : loc) (guess : heap) (e : exn) :
  Solvers.initial_guess domain initial h = (Ok sol, guess) ->
  NewtonSolver_solve
    (Solvers.nonlinear_problem domain sol initial bc_top) domain guess
    = Raise e ->
  Solvers.solve_pde domain initial bc_top h = (Raise e, guess) /\
  ((0 < nt)%nat ->
   Solvers.solve domain initial bc_top h = (Raise e, guess)) /\
  (forall l, l ∈ dom h -> guess !! l = h !! l).
Proof.
  intros Hinit Hnewton.
  assert (Hpde : Solvers.solve_pde domain initial bc_top h = (Raise e, guess))
    by (rewrite (solve_pde_run _ _ _ _ _ _ Hinit), Hnewton; reflexivity).
  split; [exact Hpde|]. split.
  - intros Hnt. unfold Solvers.solve.
    destruct nt as [|n]; [lia|]. simpl seq. simpl Solvers.time_steps.
    apply bind_Raise. unfold Solvers.time_step.
    now apply bind_Raise.
  - exact (solve_pde_frame _ _ _ _ _ _ Hpde).
Qed.

Lemma newton_failure_aborts_run_witness :
  let bc_top := {| bc_type := "velocity"; bc_top_value := -1 |} in
  exists guess,
    @Solvers.solve example_params example_external_failing example_mesh 0
      bc_top example_heap = (Raise RuntimeError, guess) /\
    guess !! 0%nat = example_heap !! 0%nat.
Proof.
  intros bc_top.
  destruct (@initial_guess_fresh example_params example_mesh 0%nat
              example_heap) as (guess & Hinit & _).
  destruct (@newton_failure_aborts_run example_params
              example_external_failing example_mesh 0%nat bc_top
              example_heap _ guess RuntimeError Hinit eq_refl)
    as (_ & Hsolve & Hframe).
  exists guess. split.
  - apply Hsolve. simpl. lia.
  - apply Hframe. exact example_heap_initial.
Defined.

(** X12. The clamp is idempotent and keeps the length of the array, and a
    porosity that respects the floor at every vertex passes through it
    unchanged. *)
Theorem clamp_idempotent `{Params} (Phi : list R) :
  Solvers.clamp (Solvers.clamp Phi) = Solvers.clamp Phi /\
  length (Solvers.clamp Phi) = length Phi /\
  (Forall (fun v => phi_min <= v) Phi -> Solvers.clamp Phi = Phi).
Proof.
  unfold Solvers.clamp. split; [|split].
  - induction Phi as [|v Phi IH]; [reflexivity|].
    simpl. rewrite IH. f_equal.
    destruct (Rlt_dec v phi_min) as [Hlt|Hge].
    + destruct (Rlt_dec (1.01 * phi_min) phi_min); reflexivity.
    + destruct (Rlt_dec v phi_min); [contradiction|reflexivity].
  - apply length_map.
  - induction 1 as [|v Phi Hv _ IH]; [reflexivity|].
    simpl. rewrite IH. destruct (Rlt_dec v phi_min); [lra|reflexivity].
Qed.

Lemma clamp_idempotent_witness :
  @Solvers.clamp example_params [0.5; 0.02] = [0.5; 0.02].
Proof.
  destruct (@clamp_idempotent example_params [0.5; 0.02]) as (_ & _ & Hid).
  apply Hid. repeat constructor; simpl; lra.
Defined.

(** X13. The clamp acts on the porosity alone and only upwards: for a
    non-negative floor [solve_pde] returns the velocity of the Newton
    solution as it is and a porosity that is nowhere smaller than that of
    the Newton solution; for a positive floor the porosity it returns is
    positive at every vertex. *)
Theorem clamp_only_raises_porosity `{Params} `{External}
    (domain : list R) (sol_n : loc) (bc_top : bc_spec) (h : heap) :
  0 <= phi_min ->
  forall (sol : loc) (guess : heap) (f : fem_function),
    Solvers.initial_guess domain sol_n h = (Ok sol, guess) ->
    NewtonSolver_solve
      (Solvers.nonlinear_problem domain sol sol_n bc_top) domain guess
      = Ok f ->
    exists h',
      Solvers.solve_pde domain sol_n bc_top h = (Ok sol, h') /\
      sub (h' !!! sol) 0 = dofs0 f /\
      Forall2 Rle (dofs1 f) (sub (h' !!! sol) 1) /\
      (0 < phi_min -> Forall (fun v => 0 < v) (sub (h' !!! sol) 1)).
Proof.
  intros Hmin sol guess f Hinit Hnewton.
  rewrite (solve_pde_run _ _ _ _ _ _ Hinit), Hnewton.
  eexists. split; [reflexivity|].
  rewrite lookup_total_insert_eq. simpl.
  split; [reflexivity|]. unfold Solvers.clamp. split.
  - induction (dofs1 f) as [|v Phi IH]; simpl; constructor; [|exact IH].
    destruct (Rlt_dec v phi_min); lra.
  - intros Hpos.
    induction (dofs1 f) as [|v Phi IH]; simpl; constructor; [|exact IH].
    destruct (Rlt_dec v phi_min); lra.
Qed.

Lemma clamp_only_raises_porosity_witness :
  let bc_top := {| bc_type := "velocity"; bc_top_value := -1 |} in
  let sol := fresh (dom example_heap) in
  exists h',
    @Solvers.solve_pde example_params example_external example_mesh 0 bc_top
      example_heap = (Ok sol, h') /\
    sub (h' !!! sol) 0 = [0; -1] /\
    Forall (fun v => 0 < v) (sub (h' !!! sol) 1).
Proof.
  intros bc_top sol.
  destruct (@initial_guess_fresh example_params example_mesh 0%nat
              example_heap) as (guess & Hinit & _).
  destruct (@clamp_only_raises_porosity example_params example_external
              example_mesh 0%nat bc_top example_heap
              ltac:(simpl; lra) sol guess example_solution Hinit eq_refl)
    as (h' & Hrun & Hw & _ & Hpos).
  exists h'. split; [exact Hrun|]. split; [exact Hw|].
  apply Hpos. simpl. lra.
Defined.

(** X14. The replacement value [1.01*phi_min] presupposes a non-negative
    floor: with [phi_min < 0] every value below the floor is replaced by
    a value that is again below the floor. *)
Theorem negative_floor_is_not_enforced `{Params} (v : R) :
  phi_min < 0 -> v < phi_min ->
  Solvers.clamp [v] = [1.01 * phi_min] /\ 1.01 * phi_min < phi_min.
Proof.
  intros Hneg Hv. unfold Solvers.clamp. simpl.
  destruct (Rlt_dec v phi_min); [|contradiction]. split; [reflexivity|lra].
Qed.

Lemma negative_floor_is_not_enforced_witness :
  @Solvers.clamp example_params_negative_floor [-2] = [1.01 * -1] /\
  1.01 * -1 < -1.
Proof.
  apply (@negative_floor_is_not_enforced example_params_negative_floor (-2));
    simpl; lra.
Defined.

(** ** More on the residual and the boundary conditions *)



Lemma locate_base (x : list R) :
  (2 <= length x)%nat ->
  locate_entities_boundary x (fun y => isclose y 0)
  = (if isclose (x !!! 0%nat) 0 then [0%nat] else [])
    ++ (if isclose (x !!! (length x - 1)%nat) 0
        then [(length x - 1)%nat] else []).
Proof.
  intros HN. unfold locate_entities_boundary.
  rewrite boundary_vertices_ends by exact HN. simpl.
  destruct (isclose (x !!! 0%nat) 0),
           (isclose (x !!! (length x - 1)%nat) 0); reflexivity.
Qed.

(** X16. The base condition is tied to the coordinate 0, not to the base
    of the mesh: on a mesh with its base vertex at [z = 0] (and its top
    vertex away from it) the condition [w = 0] holds the base vertex alone;
    on a mesh with no end at [z = 0] it is still in the list, but holds
    no vertex at all.  The top condition of the type ['velocity'] holds
    the top vertex of every increasing mesh that is not below 0. *)
Theorem base_condition_needs_vertex_at_origin
    (domain : list R) (bc_top : bc_spec) :
  (2 <= length domain)%nat ->
  let N1 := (length domain - 1)%nat in
  (isclose (domain !!! 0%nat) 0 = true -> isclose (domain !!! N1) 0 = false ->
   hd_error (Solvers.boundary_conditions domain bc_top)
   = Some (dirichletbc 0 [0%nat] (P1xP1_sub 0))) /\
  (isclose (domain !!! 0%nat) 0 = false -> isclose (domain !!! N1) 0 = false ->
   hd_error (Solvers.boundary_conditions domain bc_top)
   = Some (dirichletbc 0 [] (P1xP1_sub 0))) /\
  (increasing domain -> 0 <= domain !!! N1 ->
   bc_type bc_top = "velocity"%string ->
   exists dofs_t,
     Solvers.boundary_conditions domain bc_top
     = [dirichletbc 0
          (locate_entities_boundary domain (fun y => isclose y 0))
          (P1xP1_sub 0);
        dirichletbc (bc_top_value bc_top) dofs_t (P1xP1_sub 0)] /\
     In N1 dofs_t).
Proof.
  intros HN N1.
  assert (Hhd : hd_error (Solvers.boundary_conditions domain bc_top)
                = Some (dirichletbc 0
                          (locate_entities_boundary domain
                             (fun y => isclose y 0))
                          (P1xP1_sub 0))).
  { unfold Solvers.boundary_conditions.
    destruct (String.eqb (bc_type bc_top) "velocity"); reflexivity. }
  split; [|split].
  - intros Hb0 HbN. rewrite Hhd, locate_base by exact HN.
    fold N1. now rewrite Hb0, HbN.
  - intros Hb0 HbN. rewrite Hhd, locate_base by exact HN.
    fold N1. now rewrite Hb0, HbN.
  - intros Hinc HxN Hv. unfold Solvers.boundary_conditions.
    rewrite Hv. simpl. eexists. split; [reflexivity|].
    unfold locate_dofs_topological, locate_entities_boundary.
    apply List.filter_In. split.
    + rewrite boundary_vertices_ends by exact HN. right. left. reflexivity.
    + assert (Hne : domain <> [])
        by (destruct domain; simpl in HN; [lia|congruence]).
      unfold geometry_max. rewrite (array_max_increasing domain Hinc Hne).
      fold N1. rewrite Rmax_left by exact HxN. apply isclose_refl.
Qed.

Lemma base_condition_needs_vertex_at_origin_witness :
  let bc_top := {| bc_type := "velocity"; bc_top_value := -1 |} in
  hd_error (@Solvers.boundary_conditions example_mesh bc_top)
  = Some (dirichletbc 0 [0%nat] (P1xP1_sub 0)) /\
  hd_error (@Solvers.boundary_conditions example_mesh_off_origin bc_top)
  = Some (dirichletbc 0 [] (P1xP1_sub 0)) /\
  exists dofs_t,
    @Solvers.boundary_conditions example_mesh bc_top
    = [dirichletbc 0
         (locate_entities_boundary example_mesh (fun y => isclose y 0))
         (P1xP1_sub 0);
       dirichletbc (-1) dofs_t (P1xP1_sub 0)] /\
    In 1%nat dofs_t.
Proof.
  intros bc_top.
  destruct (base_condition_needs_vertex_at_origin
              example_mesh bc_top ltac:(simpl; lia)) as (Hat & _ & Htop).
  destruct (base_condition_needs_vertex_at_origin
              example_mesh_off_origin bc_top ltac:(simpl; lia))
    as (_ & Hoff & _).
  split; [|split].
  - apply Hat; [apply isclose_refl|exact example_top_far_from_zero].
  - apply Hoff; [exact isclose_1_0|exact isclose_2_0].
  - apply Htop; [exact example_mesh_increasing|simpl; lra|reflexivity].
Defined.

(** ** The stress diagnostic *)

Lemma C_one (p0 : R) : 0 < p0 -> Misc.C p0 p0 = 1.
Proof.
  intros Hp0. unfold Misc.C; simpl.
  assert (0 < 1 / p0) by (apply Rdiv_lt_0_compat; lra).
  field. split; lra.
Qed.

Lemma C_pos (p p0 : R) : 0 < p -> 0 < p0 -> 0 < Misc.C p p0.
Proof.
  intros Hp Hp0. unfold Misc.C; simpl.
  assert (0 < 1 / p0) by (apply Rdiv_lt_0_compat; lra).
  assert (0 < 1 / p) by (apply Rdiv_lt_0_compat; lra).
  apply Rdiv_lt_0_compat; lra.
Qed.

(** X17. [get_stress] only reads.  At every vertex it returns
    [(1-phi)*C(phi,phi0)*w_z]; for a porosity in [(0, 1)] and a positive
    reference porosity the stress has the sign of the strain rate [w_z]
    (zero where it is zero), and where [phi = phi0] it is
    [(1-phi0)*w_z]. *)
Theorem stress_follows_strain_rate `{Params} `{Differentiation}
    (sol : loc) (domain : list R) (h : heap) :
  let phi := sub (h !!! sol) 1 in
  let w_z := interpolate_Dx domain (sub (h !!! sol) 0) in
  exists sigma,
    Misc.get_stress sol domain h = (Ok sigma, h) /\
    length sigma = Nat.min (length phi) (length w_z) /\
    forall j p d, phi !! j = Some p -> w_z !! j = Some d ->
      exists s,
        sigma !! j = Some s /\
        s = (1 - p) * Misc.C p phi0 * d /\
        (0 < phi0 -> 0 < p < 1 ->
         (0 < d -> 0 < s) /\ (d < 0 -> s < 0) /\ (d = 0 -> s = 0)) /\
        (0 < phi0 -> p = phi0 -> s = (1 - phi0) * d).
Proof.
  intros phi w_z. eexists. split; [reflexivity|].
  cbn [fst snd]. fold phi w_z.
  split; [apply length_zip_with|].
  intros j p d Hp Hd. eexists. split; [|split; [reflexivity|split]].
  - rewrite lookup_zip_with, Hp, Hd. reflexivity.
  - intros Hphi0 [Hp0 Hp1].
    pose proof (C_pos p phi0 Hp0 Hphi0) as HC.
    assert (Hfac : 0 < (1 - p) * Misc.C p phi0)
      by (apply Rmult_lt_0_compat; lra).
    split; [|split].
    + intros Hd0. apply Rmult_lt_0_compat; lra.
    + intros Hd0.
      replace ((1 - p) * Misc.C p phi0 * d)
        with (- ((1 - p) * Misc.C p phi0 * (- d))) by ring.
      assert (0 < (1 - p) * Misc.C p phi0 * (- d))
        by (apply Rmult_lt_0_compat; lra).
      lra.
    + intros ->. ring.
  - intros Hphi0 ->. rewrite (C_one phi0 Hphi0). ring.
Qed.

Lemma stress_follows_strain_rate_witness :
  exists sigma s,
    @Misc.get_stress example_params example_differentiation 0 example_mesh
      example_heap = (Ok sigma, example_heap) /\
    sigma !! 0%nat = Some s /\ s < 0.
Proof.
  destruct (@stress_follows_strain_rate example_params
              example_differentiation 0%nat example_mesh example_heap)
    as (sigma & Hrun & _ & Hnodes).
  assert (Hheap : example_heap !!! 0%nat
                  = {| dofs0 := [0; -1]; dofs1 := [0.5; 0.5] |})
    by (unfold example_heap; now rewrite lookup_total_singleton_eq).
  destruct (Hnodes 0%nat 0.5 ((-1 - 0) / (1 - 0))) as (s & Hs & _ & Hsign & _).
  - rewrite Hheap. reflexivity.
  - rewrite Hheap. reflexivity.
  - exists sigma, s. split; [exact Hrun|]. split; [exact Hs|].
    apply Hsign; simpl; lra.
Defined.

(** ** More on the driver *)

Lemma bind_lift {A B} (r : res A) (k : A -> M B) (h : heap) :
  bind (lift r) k h
  = match r with Ok x => k x h | Raise e => (Raise e, h) end.
Proof. destruct r; reflexivity. Qed.

Lemma move_mesh_heap `{Params} `{External} (domain : list R) (sol : loc)
    (h h' : heap) (r : res (list R)) :
  Misc.move_mesh domain sol h = (r, h') -> h' = h.
Proof.
  unfold Misc.move_mesh, bind, values, lift, ret. cbn [fst snd].
  destruct (iadd _ _); now inversion 1.
Qed.

(** The heap after a pass through the loop body, complete or not: that of
    the step solver, with the object [sol_n] overwritten when the pass is
    complete. *)
Lemma time_step_heap `{Params} `{External}
    (i : nat) (domain : list R) (sol_n : loc) (bc_top : bc_spec)
    (out : Solvers.outputs) (h h' : heap)
    (r : res (list R * Solvers.outputs * loc)) :
  Solvers.time_step i domain sol_n bc_top out h = (r, h') ->
  exists rs h1,
    Solvers.solve_pde domain sol_n bc_top h = (rs, h1) /\
    (h' = h1 \/ exists f1 f2, h' = <[sol_n := f2]> (<[sol_n := f1]> h1)).
Proof.
  destruct out as [[w_arr phi_arr] z_arr].
  unfold Solvers.time_step. intros Hrun.
  destruct (Solvers.solve_pde domain sol_n bc_top h) as [[sol|e] h1] eqn:Hpde.
  - exists (Ok sol), h1. split; [reflexivity|].
    rewrite (bind_Ok _ _ _ _ _ Hpde) in Hrun.
    rewrite (bind_Ok _ _ _ _ _ (interp_run _ _ _)) in Hrun.
    rewrite (bind_Ok _ _ _ _ _ (interp_run _ _ _)) in Hrun.
    rewrite bind_lift in Hrun.
    destruct (set_row w_arr i _) as [w_arr'|e]; [|inversion Hrun; auto].
    rewrite bind_lift in Hrun.
    destruct (set_row phi_arr i _) as [phi_arr'|e]; [|inversion Hrun; auto].
    rewrite bind_lift in Hrun.
    destruct (set_row z_arr i _) as [z_arr'|e]; [|inversion Hrun; auto].
    destruct (Misc.move_mesh domain sol h1) as [[domain'|e] h2] eqn:Hmove;
      pose proof (move_mesh_heap _ _ _ _ _ Hmove) as ->.
    + rewrite (bind_Ok _ _ _ _ _ Hmove) in Hrun.
      unfold bind, interpolate, values, assign, ret in Hrun.
      cbn [fst snd] in Hrun. inversion Hrun. right. eauto.
    + rewrite (bind_Raise _ _ _ _ _ Hmove) in Hrun. inversion Hrun. auto.
  - exists (Raise e), h1. split; [reflexivity|].
    rewrite (bind_Raise _ _ _ _ _ Hpde) in Hrun. inversion Hrun. auto.
Qed.

Lemma time_step_frame `{Params} `{External}
    (i : nat) (domain : list R) (sol_n : loc) (bc_top : bc_spec)
    (out : Solvers.outputs) (h h' : heap)
    (r : res (list R * Solvers.outputs * loc)) :
  Solvers.time_step i domain sol_n bc_top out h = (r, h') ->
  (forall l, l ∈ dom h -> l <> sol_n -> h' !! l = h !! l) /\
  (forall l, l ∈ dom h -> l ∈ dom h').
Proof.
  intros Hrun.
  destruct (time_step_heap _ _ _ _ _ _ _ _ Hrun) as (rs & h1 & Hpde & Hh').
  pose proof (solve_pde_frame _ _ _ _ _ _ Hpde) as Hframe.
  assert (Hdom1 : forall l, l ∈ dom h -> l ∈ dom h1).
  { intros l Hl. apply elem_of_dom. rewrite (Hframe l Hl).
    now apply elem_of_dom. }
  destruct Hh' as [->|(f1 & f2 & ->)].
  - split; [intros l Hl _; now apply Hframe|exact Hdom1].
  - split.
    + intros l Hl Hne. rewrite !lookup_insert_ne by congruence.
      now apply Hframe.
    + intros l Hl. rewrite !dom_insert_L. specialize (Hdom1 l Hl).
      set_solver.
Qed.

Lemma time_steps_frame `{Params} `{External}
    (range : list nat) (domain : list R) (sol_n : loc) (bc_top : bc_spec)
    (out : Solvers.outputs) (h h' : heap) (r : res Solvers.outputs) :
  Solvers.time_steps range domain sol_n bc_top out h = (r, h') ->
  (forall l, l ∈ dom h -> l <> sol_n -> h' !! l = h !! l) /\
  (forall l, l ∈ dom h -> l ∈ dom h').
Proof.
  revert domain out h.
  induction range as [|i range IH]; intros domain out h; simpl.
  - unfold ret. inversion 1; subst. auto.
  - intros Hrun.
    destruct (Solvers.time_step i domain sol_n bc_top out h)
      as [[[[domain1 out1] sol]|e] h1] eqn:Hstep;
      destruct (time_step_frame _ _ _ _ _ _ _ _ Hstep) as [Hframe Hdom].
    + rewrite (bind_Ok _ _ _ _ _ Hstep) in Hrun.
      destruct (IH _ _ _ Hrun) as [Hframe' Hdom'].
      split.
      * intros l Hl Hne. rewrite Hframe' by auto. now apply Hframe.
      * auto.
    + rewrite (bind_Raise _ _ _ _ _ Hstep) in Hrun.
      inversion Hrun; subst. auto.
Qed.

(** X18. Whatever its outcome, [solve] changes no [Function] that existed
    before the call other than [initial], and removes none; with [nt = 0]
    it changes nothing and returns the three arrays of shape [(0, nz)]
    without a single solve. *)
Theorem solve_touches_only_initial `{Params} `{External}
    (domain : list R) (initial : loc) (bc_top : bc_spec) (h h' : heap)
    (r : res Solvers.outputs) :
  Solvers.solve domain initial bc_top h = (r, h') ->
  (forall l, l ∈ dom h -> l <> initial -> h' !! l = h !! l) /\
  (forall l, l ∈ dom h -> l ∈ dom h') /\
  (nt = 0%nat ->
   h' = h /\ r = Ok (zeros (0%nat, nz), zeros (0%nat, nz), zeros (0%nat, nz))).
Proof.
  intros Hrun. unfold Solvers.solve in Hrun.
  destruct (time_steps_frame _ _ _ _ _ _ _ _ Hrun) as [Hframe Hdom].
  split; [exact Hframe|]. split; [exact Hdom|].
  intros Hnt. rewrite Hnt in Hrun. simpl in Hrun. unfold ret in Hrun.
  inversion Hrun. auto.
Qed.

Lemma solve_touches_only_initial_witness :
  let bc_top := {| bc_type := "velocity"; bc_top_value := -1 |} in
  let h := <[7%nat := example_solution]> example_heap in
  let outcome := @Solvers.solve example_params example_external
                   example_mesh 0 bc_top h in
  outcome.2 !! 7%nat = Some example_solution.
Proof.
  intros bc_top h outcome.
  destruct (@solve_touches_only_initial example_params example_external
              example_mesh 0%nat bc_top h outcome.2 outcome.1)
    as (Hframe & _ & _).
  - unfold outcome. now destruct (Solvers.solve _ _ _ _).
  - rewrite Hframe.
    + unfold h. apply lookup_insert_eq.
    + unfold h. rewrite dom_insert_L. set_solver.
    + discriminate.
Defined.





Section WithoutColumns.
Context `{Params} `{External}.
Hypothesis Hnz : nz = 0%nat.
Hypothesis Hnewton :
  forall problem domain h, exists f, NewtonSolver_solve problem domain h = Ok f.
Hypothesis Hlinear :
  forall a L bcs x, length (LinearProblem_solve a L bcs x) = length x.
Hypothesis Hg : one_value_per_point griddata.


End WithoutColumns.


